(** * Sunbiz scraper: a shallow embedding of [main.py] and [telegram_bot.py]

    The development follows the two source files.

    - [PyStr] holds the few built-ins of Python's [str] that the code calls
      ([strip], [split], [join], [replace], [lower], [splitlines], [in],
      [startswith]) together with the character tables they consult.
    - [Re] is the fragment of Python's [re] that [PO_BOX_PATTERN] is written
      in, with a backtracking matcher and a declarative matching relation.
    - [Main] is [main.py]: the address classifier, the seen store and the
      pagination loop of [fetch_sunbiz_data].
    - [TelegramBot] is [telegram_bot.py]: [run_fetch_sync] and the worker
      loop, as a transition system whose inputs are the answers of the
      awaited calls.

    A Python [str] is a list of characters.  A character is a code point of
    the Latin-1 block (0..255, Rocq's [ascii]); the tables [isspace],
    [is_word] and [lower_char] are Python's Unicode tables restricted to
    that block. *)

From stdpp Require Import gmap strings list fin_maps relations sorting.
From Stdlib Require Import Ascii String ZArith DecimalString.

Abbreviation str := (list ascii).

(** [py "text"] is the Python literal ["text"]. *)
Definition py (s : string) : str := list_ascii_of_string s.

(* ===================================================================== *)
(** ** Built-ins of [str] *)
(* ===================================================================== *)

Module PyStr.

Definition ord (c : ascii) : N := N_of_ascii c.
Definition chr (n : N) : ascii := ascii_of_N n.

Definition LF : ascii := chr 10.
Definition CR : ascii := chr 13.
Definition SP : ascii := chr 32.

Definition between (lo hi n : N) : bool := ((lo <=? n) && (n <=? hi))%N.

(** [str.isspace] on one character; also the class [\s] of [re]. *)
Definition isspace (c : ascii) : bool :=
  let n := ord c in
  between 9 13 n || between 28 32 n || (n =? 133)%N || (n =? 160)%N.

(** The line boundaries of [str.splitlines]. *)
Definition is_line_boundary (c : ascii) : bool :=
  let n := ord c in
  between 10 13 n || between 28 30 n || (n =? 133)%N.

(** Alphanumeric or underscore: the word characters of [\b] and [\w]. *)
Definition is_word (c : ascii) : bool :=
  let n := ord c in
  between 48 57 n || between 65 90 n || (n =? 95)%N || between 97 122 n
  || (n =? 170)%N || (n =? 178)%N || (n =? 179)%N || (n =? 181)%N
  || (n =? 185)%N || (n =? 186)%N || between 188 190 n
  || between 192 214 n || between 216 246 n || between 248 255 n.

(** [str.lower] on one character. *)
Definition lower_char (c : ascii) : ascii :=
  let n := ord c in
  if between 65 90 n || between 192 214 n || between 216 222 n
  then chr (n + 32) else c.

Definition lower (s : str) : str := map lower_char s.

Definition is_empty (s : str) : bool :=
  match s with [] => true | _ :: _ => false end.

Fixpoint lstrip (s : str) : str :=
  match s with
  | [] => []
  | c :: s' => if isspace c then lstrip s' else s
  end.

Definition rstrip (s : str) : str := rev (lstrip (rev s)).

(** [s.strip()] *)
Definition strip (s : str) : str := rstrip (lstrip s).

(** [s.split()]: the maximal runs of non-whitespace characters, in order.
    [cur] is the run being read. *)
Fixpoint split_from (cur : str) (s : str) : list str :=
  match s with
  | [] => if is_empty cur then [] else [cur]
  | c :: s' =>
      if isspace c
      then (if is_empty cur then split_from [] s' else cur :: split_from [] s')
      else split_from (cur ++ [c]) s'
  end.

Definition split (s : str) : list str := split_from [] s.

(** [s.split(sep)] for a separator of one character: the pieces between
    the separators, empty ones included. *)
Fixpoint split_on_from (sep : ascii) (cur : str) (s : str) : list str :=
  match s with
  | [] => [cur]
  | c :: s' =>
      if Ascii.eqb c sep then cur :: split_on_from sep [] s'
      else split_on_from sep (cur ++ [c]) s'
  end.

Definition split_on (sep : ascii) (s : str) : list str := split_on_from sep [] s.

(** [sep.join(l)] *)
Fixpoint join (sep : str) (l : list str) : str :=
  match l with
  | [] => []
  | w :: l' =>
      match l' with
      | [] => w
      | _ :: _ => w ++ sep ++ join sep l'
      end
  end.

(** [s.replace(old, new)] for a pattern [old] of one character. *)
Definition replace (old : ascii) (new : str) (s : str) : str :=
  flat_map (fun c => if Ascii.eqb c old then new else [c]) s.

(** [s.startswith(p)] *)
Fixpoint startswith (p s : str) : bool :=
  match p, s with
  | [], _ => true
  | _ :: _, [] => false
  | a :: p', b :: s' => Ascii.eqb a b && startswith p' s'
  end.

(** [needle in hay] *)
Fixpoint contains (needle hay : str) : bool :=
  startswith needle hay ||
  match hay with
  | [] => false
  | _ :: hay' => contains needle hay'
  end.

(** [s.splitlines()].  [after_cr] remembers that the previous character
    was a carriage return, so that a line feed right after it belongs to
    the same line break. *)
Fixpoint splitlines_from (after_cr : bool) (cur : str) (s : str) : list str :=
  match s with
  | [] => if is_empty cur then [] else [cur]
  | c :: s' =>
      if after_cr && Ascii.eqb c LF then splitlines_from false cur s'
      else if is_line_boundary c
      then cur :: splitlines_from (Ascii.eqb c CR) [] s'
      else splitlines_from false (cur ++ [c]) s'
  end.

Definition splitlines (s : str) : list str := splitlines_from false [] s.

(** Truthiness of a string: [if s:]. *)
Definition truthy (s : str) : bool := negb (is_empty s).

(** [urllib.parse.quote(term, safe="")]: every character outside
    letters, digits and [_.-~] becomes the percent-escapes of its UTF-8
    bytes. *)
Definition always_safe (c : ascii) : bool :=
  let n := ord c in
  between 48 57 n || between 65 90 n || between 97 122 n
  || (n =? 95)%N || (n =? 46)%N || (n =? 45)%N || (n =? 126)%N.

Definition hex_digit (d : N) : ascii :=
  if (d <? 10)%N then chr (48 + d) else chr (55 + d).

Definition percent (b : N) : str :=
  [chr 37; hex_digit (b / 16); hex_digit (b mod 16)].

Definition utf8 (c : ascii) : list N :=
  let n := ord c in
  if (n <? 128)%N then [n] else [(192 + n / 64)%N; (128 + n mod 64)%N].

Definition quote (s : str) : str :=
  flat_map (fun c => if always_safe c then [c] else flat_map percent (utf8 c)) s.

End PyStr.

(* ===================================================================== *)
(** ** The fragment of [re] used by [PO_BOX_PATTERN] *)
(* ===================================================================== *)

Module Re.
Import PyStr.

(** A one-character matcher: a literal or the class [\s]. *)
Inductive atom : Type :=
| Lit (c : ascii)
| Space.

(** Patterns: an atom, an atom under [?] or [*], the assertion [\b],
    concatenation and alternation.  The quantifiers of
    [PO_BOX_PATTERN] apply to single atoms only. *)
Inductive regex : Type :=
| One (a : atom)
| Opt (a : atom)
| Star (a : atom)
| Boundary
| Cat (r1 r2 : regex)
| Alt (r1 r2 : regex).

(** Does atom [a] accept character [c]?  Under [re.IGNORECASE] the engine
    compares a character and a literal by its own case table; on the code
    points of the Latin-1 block that table pairs the same characters as
    [str.lower] does, so both sides are lower-cased here.  (Beyond the
    block the two differ: the pattern takes U+017F for an s and U+0130
    for an i, [str.lower] does not.) *)
Definition accepts (ignorecase : bool) (a : atom) (c : ascii) : bool :=
  match a with
  | Lit p =>
      if ignorecase then Ascii.eqb (lower_char c) (lower_char p)
      else Ascii.eqb c p
  | Space => isspace c
  end.

(** Is the neighbour of a position a word character?  [None] is an end
    of the text. *)
Definition word_at (c : option ascii) : bool :=
  match c with
  | Some c => is_word c
  | None => false
  end.

(** [\b]: exactly one of the two neighbours is a word character. *)
Definition at_boundary (prev : option ascii) (s : str) : bool :=
  xorb (word_at prev) (word_at (head s)).

Section Matcher.
Variable ignorecase : bool.

(** The backtracking matcher, in continuation-passing style.  [prev] is
    the character before the current position, [s] the text from the
    current position on, and [k] what must match afterwards. *)
Fixpoint star_then (a : atom) (prev : option ascii) (s : str)
    (k : option ascii -> str -> bool) : bool :=
  match s with
  | c :: s' => (accepts ignorecase a c && star_then a (Some c) s' k) || k prev s
  | [] => k prev s
  end.

Fixpoint match_then (r : regex) (prev : option ascii) (s : str)
    (k : option ascii -> str -> bool) : bool :=
  match r with
  | One a =>
      match s with
      | c :: s' => accepts ignorecase a c && k (Some c) s'
      | [] => false
      end
  | Opt a =>
      match s with
      | c :: s' => (accepts ignorecase a c && k (Some c) s') || k prev s
      | [] => k prev s
      end
  | Star a => star_then a prev s k
  | Boundary => at_boundary prev s && k prev s
  | Cat r1 r2 => match_then r1 prev s (fun prev' s' => match_then r2 prev' s' k)
  | Alt r1 r2 => match_then r1 prev s k || match_then r2 prev s k
  end.

(** A match starting exactly at the current position. *)
Definition match_here (r : regex) (prev : option ascii) (s : str) : bool :=
  match_then r prev s (fun _ _ => true).

(** Try every start position from left to right. *)
Fixpoint search_from (r : regex) (prev : option ascii) (s : str) : bool :=
  match_here r prev s ||
  match s with
  | c :: s' => search_from r (Some c) s'
  | [] => false
  end.
End Matcher.

(** A compiled pattern: [re.compile(source, flags)]. *)
Record Pattern : Type := compile {
  pattern : regex;
  IGNORECASE : bool
}.

(** [bool(p.search(text))]: is there a match anywhere in [text]? *)
Definition search (p : Pattern) (text : str) : bool :=
  search_from (IGNORECASE p) (pattern p) None text.

(** Concatenation of a non-empty list of patterns, and a literal word. *)
Fixpoint seq (r : regex) (rs : list regex) : regex :=
  match rs with
  | [] => r
  | r' :: rs' => Cat r (seq r' rs')
  end.

Definition lit (c : ascii) : regex := One (Lit c).

Definition word (s : string) : list regex := map lit (py s).

(** The character that precedes the position reached after reading [w]
    from a position preceded by [prev]. *)
Definition last_char (prev : option ascii) (w : str) : option ascii :=
  match last w with
  | Some c => Some c
  | None => prev
  end.

(** The declarative meaning of a pattern: [Matches i r prev w rest] says
    that [r] matches exactly the characters [w], when [prev] precedes
    them and [rest] follows them. *)
Inductive Matches (i : bool) : regex -> option ascii -> str -> str -> Prop :=
| M_One a prev c rest :
    accepts i a c = true -> Matches i (One a) prev [c] rest
| M_Opt_some a prev c rest :
    accepts i a c = true -> Matches i (Opt a) prev [c] rest
| M_Opt_none a prev rest :
    Matches i (Opt a) prev [] rest
| M_Star a prev w rest :
    forallb (accepts i a) w = true -> Matches i (Star a) prev w rest
| M_Boundary prev rest :
    at_boundary prev rest = true -> Matches i Boundary prev [] rest
| M_Cat r1 r2 prev w1 w2 rest :
    Matches i r1 prev w1 (w2 ++ rest) ->
    Matches i r2 (last_char prev w1) w2 rest ->
    Matches i (Cat r1 r2) prev (w1 ++ w2) rest
| M_Alt_l r1 r2 prev w rest :
    Matches i r1 prev w rest -> Matches i (Alt r1 r2) prev w rest
| M_Alt_r r1 r2 prev w rest :
    Matches i r2 prev w rest -> Matches i (Alt r1 r2) prev w rest.

End Re.

(* ===================================================================== *)
(** ** [main.py] *)
(* ===================================================================== *)

Module Main.
Import PyStr Re.

Definition BASE_URL : str := py "https://search.sunbiz.org".
Definition SEARCH_TERM : str := py "PLUMBER".

(** [PO_BOX_PATTERN]:
    [\b(?:p\.?\s*o\.?\s*box|post\s*office\s*box|p\.?o\.?\.?box)\b]
    compiled with [re.IGNORECASE]. *)
Definition dot : atom := Lit "."%char.

Definition po_box_spaced : regex :=        (* p\.?\s*o\.?\s*box *)
  seq (lit "p") ([Opt dot; Star Space; lit "o"; Opt dot; Star Space] ++ word "box").

Definition post_office_box : regex :=      (* post\s*office\s*box *)
  seq (lit "p") (word "ost" ++ [Star Space] ++ word "office" ++ [Star Space] ++ word "box").

Definition po_box_dotted : regex :=        (* p\.?o\.?\.?box *)
  seq (lit "p") ([Opt dot; lit "o"; Opt dot; Opt dot] ++ word "box").

Definition po_box_alternatives : regex :=
  Alt po_box_spaced (Alt post_office_box po_box_dotted).

Definition PO_BOX_PATTERN : Pattern :=
  compile (Cat Boundary (Cat po_box_alternatives Boundary)) true.

(** [quote(term, safe="")] spliced into the fixed query string. *)
Definition build_search_url (term : str) : str :=
  let encoded := quote term in
  BASE_URL ++ py "/Inquiry/CorporationSearch/SearchResults"
  ++ py "?InquiryType=EntityName&inquiryDirectionType=ForwardList"
  ++ py "&searchNameOrder=" ++ encoded ++ py "911%20P010000464770&SearchTerm=" ++ encoded
  ++ py "&entityId=P01000046477&listNameOrder=" ++ encoded
  ++ py "2WINEPAINTINGRENOVATION%20L250000424390".

(** [_is_po_box_or_empty] *)
Definition _is_po_box_or_empty (text : str) : bool :=
  if negb (truthy text) || negb (truthy (strip text)) then true
  else search PO_BOX_PATTERN text.

(** [_normalize_address] *)
Definition _normalize_address (addr : str) : str :=
  strip (join (py " ") (split (replace LF (py " ") addr))).

(** [_has_valid_address]: the loop over [details.items()] returns at the
    first entry that passes both tests. *)
Fixpoint has_valid_item (items : list (str * str)) : bool :=
  match items with
  | [] => false
  | (key, value) :: items' =>
      if contains (py "address") (lower key) && truthy value
      then (if negb (_is_po_box_or_empty value) then true
            else has_valid_item items')
      else has_valid_item items'
  end.

Definition _has_valid_address (details : gmap str str) : bool :=
  has_valid_item (map_to_list details).

(** *** The pages the browser shows

    What the locators of [main.py] read from a rendered page: the rows of
    [#search-results table tbody tr] with their [td] cells, the span
    texts of each [div.detailSection], and the anchors matched by
    [a[title="Next List"]]. *)
Record Anchor : Type := {
  a_text : str;
  a_href : option str
}.

Record Cell : Type := {
  td_text : str;
  td_links : list Anchor
}.

Record Page : Type := {
  table_rows : list (list Cell);
  detail_divs : list (list str);
  next_list_links : list Anchor
}.

Record ResultRow : Type := {
  corporate_name : str;
  document_number : str;
  status : str;
  detail_path : str
}.

Record DetailRecord : Type := {
  rec_corporate_name : str;
  rec_document_number : str;
  rec_status : str;
  detail_url : str;
  details : gmap str str
}.

(** [BASE_URL + href if href.startswith("/") else href] *)
Definition absolute (href : str) : str :=
  if startswith (py "/") href then BASE_URL ++ href else href.

(** [_get_next_list_url] *)
Definition _get_next_list_url (page : Page) : option str :=
  match next_list_links page with
  | [] => None
  | link :: _ =>
      match a_href link with
      | None => None
      | Some href => if truthy href then Some (absolute href) else None
      end
  end.

(** [_extract_detail_sections]: later labels overwrite earlier ones. *)
Fixpoint extract_sections_into (sections : gmap str str) (divs : list (list str))
    : gmap str str :=
  match divs with
  | [] => sections
  | spans :: divs' =>
      match spans with
      | s0 :: s1 :: _ =>
          let label := strip s0 in
          let value := strip s1 in
          if truthy label
          then extract_sections_into (<[label := value]> sections) divs'
          else extract_sections_into sections divs'
      | _ => extract_sections_into sections divs'
      end
  end.

Definition _extract_detail_sections (page : Page) : gmap str str :=
  extract_sections_into ∅ (detail_divs page).

(** [_extract_search_results] *)
Fixpoint extract_rows (trs : list (list Cell)) : list ResultRow :=
  match trs with
  | [] => []
  | cells :: trs' =>
      match cells with
      | c0 :: c1 :: c2 :: _ =>
          match td_links c0 with
          | [] => extract_rows trs'
          | link :: _ =>
              {| corporate_name := strip (a_text link);
                 document_number := strip (td_text c1);
                 status := strip (td_text c2);
                 detail_path := default [] (a_href link) |}
              :: extract_rows trs'
          end
      | _ => extract_rows trs'
      end
  end.

Definition _extract_search_results (page : Page) : list ResultRow :=
  extract_rows (table_rows page).

(** *** Exceptions and the outside world *)

Inductive Exception : Type :=
| BrowserError (url : str)   (* raised by [page.goto] or [wait_for_load_state] *)
| OSError (path : str).      (* raised by the file system *)

Inductive result (A : Type) : Type :=
| Return (a : A)
| Raise (e : Exception).
Arguments Return {A} a.
Arguments Raise {A} e.

(** The site: the page shown after navigating to a URL and waiting for
    the network to settle, or [None] when that raises. *)
Definition Web : Type := str -> option Page.

(** What is found at a path.  [TextFile]: a file, with the text that
    [Path.read_text] returns.  [Unreadable]: something is there whose
    reading raises (a directory, undecodable bytes).  [StatFails]: no file
    is there, and even asking raises: [Path.exists] lets every error of
    [os.stat] through except "no such file" and its like, and a name
    longer than the file system allows makes [os.stat] raise
    (OSError 36, file name too long).  A path outside the domain of the
    map is one for which [Path.exists] answers [False]. *)
Inductive File : Type :=
| TextFile (text : str)
| Unreadable
| StatFails.

Definition FileSystem : Type := str -> option File.

(** A [Path | str] argument.  A [Path] object is always truthy, a string
    only when it is non-empty. *)
Inductive PathLike : Type :=
| AsPath (p : str)
| AsStr (s : str).

Definition Path (p : PathLike) : str :=
  match p with
  | AsPath p => p
  | AsStr s => s
  end.

Definition truthy_path (p : option PathLike) : bool :=
  match p with
  | None => false
  | Some (AsPath _) => true
  | Some (AsStr s) => truthy s
  end.

(** Lines 126-130: the seen set is empty unless [seen_path] is given and
    the file exists; then it holds the stripped non-blank lines.  Nothing
    catches what [p.exists()] or [p.read_text] raise. *)
Definition seen_of_text (text : str) : gset str :=
  list_to_set
    (map strip (List.filter (fun line => truthy (strip line)) (splitlines text))).

Definition load_seen (fs : FileSystem) (seen_path : option PathLike)
    : result (gset str) :=
  if truthy_path seen_path then
    match seen_path with
    | Some p =>
        match fs (Path p) with
        | Some StatFails => Raise (OSError (Path p))  (* [p.exists()] raises *)
        | None => Return ∅                            (* not [p.exists()] *)
        | Some (TextFile text) => Return (seen_of_text text)
        | Some Unreadable => Raise (OSError (Path p)) (* [p.read_text] raises *)
        end
    | None => Return ∅
    end
  else Return ∅.

(** *** The pagination loop of [fetch_sunbiz_data] *)

(** The variables the loops update: [results], [seen], and the arguments
    the [on_progress] callback has been called with. *)
Record State : Type := {
  results : list DetailRecord;
  seen : gset str;
  progress : list nat
}.

(** [max_results is not None and len(results) >= max_results] *)
Definition cap_reached (max_results : option Z) (st : State) : bool :=
  match max_results with
  | Some n => (n <=? Z.of_nat (List.length (results st)))%Z
  | None => false
  end.

(** [page.goto(url); page.wait_for_load_state("networkidle")] *)
Definition goto (web : Web) (url : str) : result Page :=
  match web url with
  | Some page => Return page
  | None => Raise (BrowserError url)
  end.

Definition accept (on_progress : bool) (row : ResultRow) (url : str)
    (sections : gmap str str) (normalized : str) (st : State) : State :=
  let results' :=
    results st ++ [{| rec_corporate_name := corporate_name row;
                      rec_document_number := document_number row;
                      rec_status := status row;
                      detail_url := url;
                      details := sections |}] in
  {| results := results';
     seen := {[normalized]} ∪ seen st;
     progress := if on_progress then progress st ++ [List.length results']
                 else progress st |}.

(** Lines 141-168: [for row in rows]. *)
Fixpoint for_rows (web : Web) (max_results : option Z) (on_progress : bool)
    (rows : list ResultRow) (st : State) : result State :=
  match rows with
  | [] => Return st
  | row :: rows' =>
      if cap_reached max_results st then Return st                   (* break *)
      else
        let url := absolute (detail_path row) in
        match goto web url with
        | Raise e => Raise e
        | Return page =>
            let sections := _extract_detail_sections page in
            if negb (_has_valid_address sections)
            then for_rows web max_results on_progress rows' st        (* continue *)
            else
              let addr := strip (default [] (sections !! py "Principal Address")) in
              if negb (truthy addr)
              then for_rows web max_results on_progress rows' st      (* continue *)
              else
                let normalized := _normalize_address addr in
                if bool_decide (normalized ∈ seen st)
                then for_rows web max_results on_progress rows' st    (* continue *)
                else for_rows web max_results on_progress rows'
                       (accept on_progress row url sections normalized st)
        end
  end.

(** Lines 136-174: [while current_url].  [fuel] bounds the number of
    listing pages visited; [None] means the bound was hit before the
    loop ended. *)
Fixpoint while_current_url (fuel : nat) (web : Web) (max_results : option Z)
    (on_progress : bool) (current_url : option str) (st : State)
    : option (result State) :=
  match current_url with
  | None => Some (Return st)
  | Some url =>
      if negb (truthy url) then Some (Return st)
      else
        match fuel with
        | O => None
        | S fuel' =>
            match goto web url with
            | Raise e => Some (Raise e)
            | Return page =>
                match for_rows web max_results on_progress
                        (_extract_search_results page) st with
                | Raise e => Some (Raise e)
                | Return st' =>
                    if cap_reached max_results st' then Some (Return st')   (* break *)
                    else
                      match goto web url with
                      | Raise e => Some (Raise e)
                      | Return page' =>
                          while_current_url fuel' web max_results on_progress
                            (_get_next_list_url page') st'
                      end
                end
            end
        end
  end.

(** The URL the loop starts with (lines 118-121). *)
Definition initial_url (search_url search_term : option str) : str :=
  match search_url with
  | Some url => url
  | None =>
      build_search_url
        (match search_term with
         | Some term => if truthy term then term else SEARCH_TERM
         | None => SEARCH_TERM
         end)
  end.

(** Lines 126-174: loading the seen store, then the loop.  The state the
    loop ends with, the exception raised, or [None] when [fuel] listing
    pages were not enough. *)
Definition run (fuel : nat) (web : Web) (fs : FileSystem)
    (search_url search_term : option str) (max_results : option Z)
    (on_progress : bool) (seen_path : option PathLike)
    : option (result State) :=
  match load_seen fs seen_path with
  | Raise e => Some (Raise e)
  | Return seen0 =>
      while_current_url fuel web max_results on_progress
        (Some (initial_url search_url search_term))
        {| results := []; seen := seen0; progress := [] |}
  end.

(** [fetch_sunbiz_data] up to the end of the loop: the list that
    [return results] hands back.  The arguments [headless] and
    [output_path] and the files written between the loop and the [return]
    (lines 176-189) do not influence that list; a write that raises there
    makes the call raise instead, and is not part of this definition: the
    writes are [txt_file_text] and [save_seen] below. *)
Definition fetch_sunbiz_data (fuel : nat) (web : Web) (fs : FileSystem)
    (search_url search_term : option str) (max_results : option Z)
    (on_progress : bool) (seen_path : option PathLike)
    : option (result (list DetailRecord)) :=
  match run fuel web fs search_url search_term max_results on_progress seen_path with
  | None => None
  | Some (Raise e) => Some (Raise e)
  | Some (Return st) => Some (Return (results st))
  end.

(** *** The files written after the loop (lines 179-189) *)

(** Code-point order of strings, as [sorted] compares them. *)
Fixpoint str_leb (a b : str) : bool :=
  match a, b with
  | [], _ => true
  | _ :: _, [] => false
  | x :: a', y :: b' =>
      if (ord x <? ord y)%N then true
      else if (ord y <? ord x)%N then false
      else str_leb a' b'
  end.

Definition str_le (a b : str) : Prop := Is_true (str_leb a b).

#[global] Instance str_le_dec a b : Decision (str_le a b) := Is_true_dec _.

(** [sorted(l)] *)
Definition sorted (l : list str) : list str := merge_sort str_le l.

(** ["\n".join(sorted(seen))] *)
Definition seen_file_text (seen : gset str) : str :=
  join [LF] (sorted (elements seen)).

(** Lines 188-189: the seen store is rewritten when a path was given and
    the set is not empty.  Writing over something that is not a text file
    raises. *)
Definition save_seen (fs : FileSystem) (seen_path : option PathLike) (seen : gset str)
    : result FileSystem :=
  match seen_path with
  | Some p =>
      if truthy_path seen_path && negb (bool_decide (seen = ∅)) then
        match fs (Path p) with
        | Some Unreadable | Some StatFails => Raise (OSError (Path p))
        | _ =>
            Return (fun path =>
                      if bool_decide (path = Path p)
                      then Some (TextFile (seen_file_text seen))
                      else fs path)
        end
      else Return fs
  | None => Return fs
  end.

(** Lines 182-186: the text file, one line per record with a principal
    address. *)
Definition txt_file_text (results : list DetailRecord) : str :=
  flat_map
    (fun item =>
       let addr := strip (default [] (details item !! py "Principal Address")) in
       if truthy addr then replace LF (py " ") addr ++ [LF] else [])
    results.

End Main.

(* ===================================================================== *)
(** ** [telegram_bot.py] *)
(* ===================================================================== *)

Module TelegramBot.
Import PyStr Main.

(** An entry of [request_queue]: [(chat_id, keyword, count)]. *)
Record Job : Type := {
  chat_id : Z;
  keyword : str;
  count : Z
}.

(** What [get_config] returns, without the token. *)
Record Config : Type := {
  max_addresses : Z;
  data_dir : str
}.

(** *** [pathlib]: joining paths

    A [PurePosixPath] is kept as a root ([""], ["/"] or ["//"]) and the
    components between the slashes; empty components and [.] are dropped
    when the path is made, [..] is kept. *)
Definition components (text : str) : list str :=
  List.filter
    (fun part => negb (is_empty part) && negb (bool_decide (part = py ".")))
    (split_on "/" text).

(** Exactly two leading slashes are a root of their own. *)
Definition root (text : str) : str :=
  if startswith (py "///") text then py "/"
  else if startswith (py "//") text then py "//"
  else if startswith (py "/") text then py "/"
  else [].

(** [str(path)] *)
Definition path_text (root : str) (parts : list str) : str :=
  let text := root ++ join (py "/") parts in
  if is_empty text then py "." else text.

(** [str(dir / name)]: a name that begins with a slash replaces the
    directory, any other name is appended to it. *)
Definition in_dir (dir name : str) : str :=
  if startswith (py "/") name then path_text (root name) (components name)
  else path_text (root dir) (components dir ++ components name).

(** [term.lower().replace(" ", "")] *)
Definition term_clean (term : str) : str := replace SP [] (lower term).

(** [str(n)] for a length. *)
Definition str_of_nat (n : nat) : str :=
  py (NilEmpty.string_of_uint (Nat.to_uint n)).

(** The world as one call of [run_fetch_sync] finds it: whether
    [data_dir.mkdir] raises, what [fetch_sunbiz_data] does when called
    with a search term, a cap and a seen path, and for which paths
    [Path.exists] answers [True] once it is over ([False] also stands for
    an [exists] that raises: inside the [try] both end in [None]). *)
Record Executor : Type := {
  mkdir_error : option Exception;
  fetch : str -> Z -> PathLike -> result (list DetailRecord);
  file_exists : str -> bool
}.

(** [run_fetch_sync]: the path of the text file, [None] when there is
    nothing to deliver or the pipeline raised.  Only [mkdir], which is
    outside the [try], can make it raise. *)
Definition run_fetch_sync (world : Executor) (term : str) (count : Z)
    (dir seen_path : str) : result (option str) :=
  match mkdir_error world with
  | Some e => Raise e
  | None =>
      match fetch world term count (AsStr seen_path) with
      | Raise _ => Return None                               (* except Exception *)
      | Return results =>
          match results with
          | [] => Return None
          | _ :: _ =>
              let txt_path :=
                in_dir dir (term_clean term ++ str_of_nat (List.length results) ++ py ".txt") in
              if file_exists world txt_path then Return (Some txt_path)
              else Return None
          end
      end
  end.

(** The texts the worker sends; their wording has characters outside the
    Latin-1 block, so they are kept symbolic. *)
Inductive Notice : Type :=
| Processing (keyword : str) (count : Z)   (* "Procesando: ... hasta N direcciones" *)
| NoResults                                (* "No se encontraron direcciones nuevas o hubo un error" *)
| ErrorNotice (e : Exception).             (* "Error al procesar: ..." *)

(** What an observer of the bot sees, newest first in the log.  The
    number [n] says that the job is the [n]-th one dequeued, counting
    from zero. *)
Inductive Event : Type :=
| Enqueued (job : Job)
| Dequeued (n : nat) (job : Job)
| SendMessage (chat : Z) (text : Notice)         (* call of [bot.send_message] *)
| SendDocument (chat : Z) (path : str)           (* call of [bot.send_document] *)
| FetchStart (n : nat) (job : Job)               (* [run_fetch_sync] handed to the executor *)
| FetchEnd (n : nat) (r : result (option str))   (* the executor's future is done *)
| Finished (n : nat).                            (* the loop body is over for job [n] *)

(** Where the worker coroutine is suspended. *)
Inductive Pc : Type :=
| AtGet                                          (* [await request_queue.get()] *)
| AtProcessingNotice (n : nat) (job : Job)       (* [await bot.send_message(Procesando)] *)
| AtExecutor (n : nat) (job : Job)               (* [await loop.run_in_executor(...)] *)
| AtNoResultsNotice (n : nat) (job : Job)        (* [await bot.send_message(No se encontraron)] *)
| AtSendDocument (n : nat) (job : Job) (txt_path : str)
| AtErrorNotice (n : nat) (job : Job)            (* [await bot.send_message(Error al procesar)] *)
| Stopped.                                       (* the loop was left *)

(** How the event loop resumes the worker. *)
Inductive Answer : Type :=
| Done                       (* the awaited call returned *)
| Failed (e : Exception)     (* the awaited call, or a statement before the next
                                [await], raised an [Exception] *)
| Executed (world : Executor)(* the executor ran [run_fetch_sync] in [world] *)
| Cancelled.                 (* [asyncio.CancelledError] *)

Inductive Input : Type :=
| Enqueue (chat : Z) (keyword : str) (count : Z)  (* [handle_message], after parsing *)
| Resume (a : Answer).

Record Bot : Type := {
  request_queue : list Job;      (* head = next job to get *)
  queue_size : Z;
  pc : Pc;
  served : nat;                  (* jobs dequeued so far *)
  log : list Event
}.

Definition initial : Bot :=
  {| request_queue := []; queue_size := 0; pc := AtGet; served := 0; log := [] |}.

Definition goes (b : Bot) (pc' : Pc) (events : list Event) : Bot :=
  {| request_queue := request_queue b; queue_size := queue_size b;
     pc := pc'; served := served b; log := events ++ log b |}.

(** [handle_message], lines 117-121: clamp the count, put the job, count
    it. *)
Definition handle_message (cfg : Config) (chat : Z) (kw : str) (n : Z) (b : Bot) : Bot :=
  let job := {| chat_id := chat; keyword := kw;
                count := Z.min (Z.max 1 n) (max_addresses cfg) |} in
  {| request_queue := request_queue b ++ [job];
     queue_size := queue_size b + 1;
     pc := pc b; served := served b;
     log := Enqueued job :: log b |}.

(** The [except Exception as e] handler: send the error notice. *)
Definition handler (b : Bot) (n : nat) (job : Job) (e : Exception) : Bot :=
  goes b (AtErrorNotice n job) [SendMessage (chat_id job) (ErrorNotice e)].

(** One resumption of [queue_worker]: run from the current [await] to
    the next one. *)
Definition queue_worker (cfg : Config) (b : Bot) (a : Answer) : Bot :=
  match pc b, a with
  | Stopped, _ => b
  | _, Cancelled => goes b Stopped []                         (* break *)
  | AtGet, _ =>
      match request_queue b with
      | [] => b                                               (* still waiting *)
      | job :: queue' =>
          let n := served b in
          let job' := {| chat_id := chat_id job; keyword := keyword job;
                         count := Z.min (count job) (max_addresses cfg) |} in
          {| request_queue := queue';
             queue_size := Z.max 0 (queue_size b - 1);
             pc := AtProcessingNotice n job';
             served := S n;
             log := SendMessage (chat_id job') (Processing (keyword job') (count job'))
                    :: Dequeued n job :: log b |}
      end
  | AtProcessingNotice n job, Failed e => handler b n job e
  | AtProcessingNotice n job, _ => goes b (AtExecutor n job) [FetchStart n job]
  | AtExecutor n job, Executed world =>
      let dir := data_dir cfg in
      let seen_path := in_dir dir (term_clean (keyword job) ++ py "_seen.txt") in
      let r := run_fetch_sync world (keyword job) (count job) dir seen_path in
      match r with
      | Raise e =>
          goes b (AtErrorNotice n job)
            [SendMessage (chat_id job) (ErrorNotice e); FetchEnd n r]
      | Return None =>
          goes b (AtNoResultsNotice n job)
            [SendMessage (chat_id job) NoResults; FetchEnd n r]
      | Return (Some txt_path) =>
          if file_exists world txt_path
          then goes b (AtSendDocument n job txt_path)
                 [SendDocument (chat_id job) txt_path; FetchEnd n r]
          else goes b (AtNoResultsNotice n job)
                 [SendMessage (chat_id job) NoResults; FetchEnd n r]
      end
  | AtExecutor n job, _ => b                                  (* the future is not done *)
  | AtNoResultsNotice n job, Failed e => handler b n job e
  | AtNoResultsNotice n job, _ => goes b AtGet [Finished n]   (* continue *)
  | AtSendDocument n job _, Failed e => handler b n job e
  | AtSendDocument n job _, _ => goes b AtGet [Finished n]    (* unlink, next turn *)
  | AtErrorNotice n job, _ => goes b AtGet [Finished n]       (* sent, or [pass] *)
  end.

Definition step (cfg : Config) (b : Bot) (i : Input) : Bot :=
  match i with
  | Enqueue chat kw n => handle_message cfg chat kw n b
  | Resume a => queue_worker cfg b a
  end.

(** The bot after a sequence of inputs, oldest first. *)
Definition run_bot (cfg : Config) (inputs : list Input) : Bot :=
  fold_left (step cfg) inputs initial.

End TelegramBot.

(* ===================================================================== *)
(** ** Notions used to state the properties *)
(* ===================================================================== *)

Module Spec.
Import PyStr Re Main TelegramBot.

(** *** Strings that differ only in white space

    One step changes a white-space character into another one (a line
    break into a space, say), makes a run of white space one character
    longer or shorter, or adds or removes a white-space character at an
    end of the string. *)
Inductive ws_step : str -> str -> Prop :=
| ws_kind a c d b :
    isspace c = true -> isspace d = true -> ws_step (a ++ c :: b) (a ++ d :: b)
| ws_run a c d b :
    isspace c = true -> isspace d = true -> ws_step (a ++ c :: d :: b) (a ++ d :: b)
| ws_leading c b :
    isspace c = true -> ws_step (c :: b) b
| ws_trailing a c :
    isspace c = true -> ws_step (a ++ [c]) a.

Definition same_up_to_whitespace : str -> str -> Prop := rtsc ws_step.

Definition whitespace_only (s : str) : Prop := Forall (fun c => isspace c = true) s.

(** What [split_from] emits for the run read so far. *)
Definition flush (cur : str) : list str := if is_empty cur then [] else [cur].

(** A word of [split]: a non-empty string without white space. *)
Definition is_token (w : str) : Prop :=
  w <> [] /\ Forall (fun c => isspace c = false) w.

(** *** The written variants of "PO Box"

    [spelled "box" w]: [w] is the word, in any mix of cases. *)
Definition spelled (word : string) (w : str) : Prop := lower w = py word.

Inductive opt_dot : str -> Prop :=
| no_dot : opt_dot []
| one_dot : opt_dot (py ".").

Inductive po_box_phrase : str -> Prop :=
| phrase_po_box p d1 s1 o d2 s2 box :          (* P.O. Box, PO Box, P O Box, POBox *)
    spelled "p" p -> opt_dot d1 -> whitespace_only s1 ->
    spelled "o" o -> opt_dot d2 -> whitespace_only s2 ->
    spelled "box" box ->
    po_box_phrase (p ++ d1 ++ s1 ++ o ++ d2 ++ s2 ++ box)
| phrase_post_office_box post s1 office s2 box :  (* Post Office Box *)
    spelled "post" post -> whitespace_only s1 ->
    spelled "office" office -> whitespace_only s2 ->
    spelled "box" box ->
    po_box_phrase (post ++ s1 ++ office ++ s2 ++ box)
| phrase_dotted p d1 o d2 d3 box :             (* P.O..Box *)
    spelled "p" p -> opt_dot d1 -> spelled "o" o -> opt_dot d2 -> opt_dot d3 ->
    spelled "box" box ->
    po_box_phrase (p ++ d1 ++ o ++ d2 ++ d3 ++ box).

(** The phrase occurs somewhere in [text] ... *)
Definition contains_phrase (text : str) : Prop :=
  exists before phrase after,
    text = before ++ phrase ++ after /\ po_box_phrase phrase.

(** ... and it occurs as words of its own: the characters next to it, if
    any, are neither letters, digits nor underscores. *)
Definition contains_phrase_as_words (text : str) : Prop :=
  exists before phrase after,
    text = before ++ phrase ++ after /\ po_box_phrase phrase /\
    word_at (last before) = false /\ word_at (head after) = false.

(** *** The same variants, read the way the pattern reads them

    [written "box" w]: [w] has the letters of the word, one for one, each
    compared the way [PO_BOX_PATTERN] compares a character of the text
    with a literal of the pattern. *)
Definition written (word : string) (w : str) : Prop :=
  Forall2 (fun p c => accepts (IGNORECASE PO_BOX_PATTERN) (Lit p) c = true)
          (py word) w.

Inductive po_box_match : str -> Prop :=
| match_po_box p d1 s1 o d2 s2 box :            (* p\.?\s*o\.?\s*box *)
    written "p" p -> opt_dot d1 -> whitespace_only s1 ->
    written "o" o -> opt_dot d2 -> whitespace_only s2 ->
    written "box" box ->
    po_box_match (p ++ d1 ++ s1 ++ o ++ d2 ++ s2 ++ box)
| match_post_office_box post s1 office s2 box : (* post\s*office\s*box *)
    written "post" post -> whitespace_only s1 ->
    written "office" office -> whitespace_only s2 ->
    written "box" box ->
    po_box_match (post ++ s1 ++ office ++ s2 ++ box)
| match_dotted p d1 o d2 d3 box :               (* p\.?o\.?\.?box *)
    written "p" p -> opt_dot d1 -> written "o" o -> opt_dot d2 -> opt_dot d3 ->
    written "box" box ->
    po_box_match (p ++ d1 ++ o ++ d2 ++ d3 ++ box).

(** One of the variants stands in [text] as words of its own. *)
Definition contains_match_as_words (text : str) : Prop :=
  exists before found after,
    text = before ++ found ++ after /\ po_box_match found /\
    word_at (last before) = false /\ word_at (head after) = false.

(** The meaning of a pattern without [\b], as a set of strings. *)
Fixpoint lang (i : bool) (r : regex) (w : str) : Prop :=
  match r with
  | One a => exists c, w = [c] /\ accepts i a c = true
  | Opt a => w = [] \/ exists c, w = [c] /\ accepts i a c = true
  | Star a => forallb (accepts i a) w = true
  | Boundary => False
  | Cat r1 r2 => exists w1 w2, w = w1 ++ w2 /\ lang i r1 w1 /\ lang i r2 w2
  | Alt r1 r2 => lang i r1 w \/ lang i r2 w
  end.

Fixpoint no_boundary (r : regex) : bool :=
  match r with
  | Boundary => false
  | Cat r1 r2 | Alt r1 r2 => no_boundary r1 && no_boundary r2
  | _ => true
  end.

(** The letters of [s], then [r]. *)
Definition word_then (s : string) (r : regex) : regex :=
  foldr (fun c r => Cat (lit c) r) r (py s).

(** The letter [c], then the letters of [s], and nothing else. *)
Definition exact_word (c : ascii) (s : string) : regex := seq (lit c) (word s).

(** The key of a section names an address, in any mix of cases. *)
Definition mentions_address (key : str) : Prop :=
  exists before mid after, key = before ++ mid ++ after /\ spelled "address" mid.

(** *** Pagination

    [finite_chain web url n]: starting at [url], following the "Next
    List" links shows [n] listing pages, the last of which has no such
    link. *)
Inductive finite_chain (web : Web) : str -> nat -> Prop :=
| chain_last url page :
    web url = Some page -> _get_next_list_url page = None ->
    finite_chain web url 1
| chain_next url page next n :
    web url = Some page -> _get_next_list_url page = Some next ->
    finite_chain web next n ->
    finite_chain web url (S n).

(** No navigation raises. *)
Definition always_loads (web : Web) : Prop := forall url, is_Some (web url).

(** *** Accepted records *)

(** The value of the "Principal Address" section, [""] when absent. *)
Definition principal_address (r : DetailRecord) : str :=
  default [] (details r !! py "Principal Address").

(** The normalized "Principal Address" of a record. *)
Definition normalized_principal (r : DetailRecord) : str :=
  _normalize_address (principal_address r).

(** [fresh_in_turn s0 rs]: each record of [rs], in order, has a normalized
    address that is neither in [s0] nor that of an earlier record of
    [rs]: it is not in the seen set at the moment it is accepted. *)
Fixpoint fresh_in_turn (s0 : gset str) (rs : list DetailRecord) : Prop :=
  match rs with
  | [] => True
  | r :: rs' =>
      (normalized_principal r ∉ s0) /\
      fresh_in_turn ({[normalized_principal r]} ∪ s0) rs'
  end.

Definition keys (rs : list DetailRecord) : gset str :=
  list_to_set (map normalized_principal rs).

(** What the two tests of lines 151-155 establish. *)
Definition has_principal (r : DetailRecord) : Prop :=
  _has_valid_address (details r) = true /\ strip (principal_address r) <> [].

(** The same, in words: the "Principal Address" is not blank, and some
    section whose label mentions an address holds a value that is neither
    blank nor a PO Box. *)
Definition acceptable (r : DetailRecord) : Prop :=
  ~ whitespace_only (principal_address r) /\
  exists key value,
    details r !! key = Some value /\ mentions_address key /\
    _is_po_box_or_empty value = false.

(** [st'] is [st] after accepting the records [new], in order. *)
Definition extends (st st' : State) (new : list DetailRecord) : Prop :=
  results st' = results st ++ new /\
  seen st' = keys new ∪ seen st /\
  fresh_in_turn (seen st) new /\
  Forall has_principal new.

(** The three tests that make the loop skip a row. *)
Definition skipped (sections : gmap str str) (st : State) : bool :=
  let addr := strip (default [] (sections !! py "Principal Address")) in
  negb (_has_valid_address sections) || negb (truthy addr)
  || bool_decide (_normalize_address addr ∈ seen st).

Definition under_cap (max_results : option Z) (st : State) : Prop :=
  forall n, max_results = Some n -> (0 <= n)%Z ->
    (Z.of_nat (List.length (results st)) <= n)%Z.

(** *** The worker *)

Definition cancelled (a : Answer) : bool :=
  match a with Cancelled => true | _ => false end.

(** Requests that arrive while the worker is suspended. *)
Definition arrivals (cfg : Config) (reqs : list (Z * str * Z)) (b : Bot) : Bot :=
  fold_left (fun b '(chat, kw, n) => handle_message cfg chat kw n b) reqs b.

Definition job_of (cfg : Config) (req : Z * str * Z) : Job :=
  let '(chat, kw, n) := req in
  {| chat_id := chat; keyword := kw; count := Z.min (Z.max 1 n) (max_addresses cfg) |}.

Definition seen_path_of (cfg : Config) (job : Job) : str :=
  in_dir (data_dir cfg) (term_clean (keyword job) ++ py "_seen.txt").

(** The pipeline invocation of [job] raises in [world]: either
    [fetch_sunbiz_data] does, or [mkdir] before it. *)
Definition invocation_raises (cfg : Config) (world : Executor) (job : Job) : Prop :=
  is_Some (mkdir_error world) \/
  exists e, fetch world (keyword job) (count job) (AsStr (seen_path_of cfg job)) = Raise e.

Definition failure_notice (chat : Z) (e : Event) : Prop :=
  match e with
  | SendMessage c NoResults | SendMessage c (ErrorNotice _) => c = chat
  | _ => False
  end.

(** If the worker is still busy after an answer, give it the next one. *)
Definition settle (cfg : Config) (b : Bot) (a : Answer) : Bot :=
  match pc b with
  | AtGet => b
  | _ => queue_worker cfg b a
  end.

(** Jobs put into the queue and jobs taken out of it, oldest first. *)
Definition enqueued_jobs (l : list Event) : list Job :=
  omap (fun e => match e with Enqueued j => Some j | _ => None end) (rev l).

Definition dequeued_jobs (l : list Event) : list Job :=
  omap (fun e => match e with Dequeued _ j => Some j | _ => None end) (rev l).

(** Pipeline invocations started and not yet over. *)
Fixpoint in_flight (l : list Event) : Z :=
  match l with
  | [] => 0
  | FetchStart _ _ :: older => in_flight older + 1
  | FetchEnd _ _ :: older => in_flight older - 1
  | _ :: older => in_flight older
  end.

(** The delivery or the failure notice that ends a job. *)
Definition outcome_for (chat : Z) (e : Event) : Prop :=
  match e with
  | SendDocument c _ | SendMessage c NoResults | SendMessage c (ErrorNotice _) => c = chat
  | _ => False
  end.

(** Job [n] was dequeued in [l] and its outcome was sent afterwards. *)
Definition completed (n : nat) (l : list Event) : Prop :=
  exists job later earlier,
    l = later ++ Dequeued n job :: earlier /\ Exists (outcome_for (chat_id job)) later.

(** The job the worker runs is the request that was dequeued. *)
Definition same_request (j job : Job) : Prop :=
  chat_id j = chat_id job /\ keyword j = keyword job.

(** What must hold of the events before [e] when [e] happens. *)
Definition timely (e : Event) (older : list Event) : Prop :=
  match e with
  | FetchStart n job =>
      (forall m, m < n -> Finished m ∈ older) /\
      exists j, Dequeued n j ∈ older /\ same_request j job
  | Finished n => completed n older
  | _ => True
  end.

Fixpoint orderly (l : list Event) : Prop :=
  match l with
  | [] => True
  | e :: older => timely e older /\ (0 <= in_flight l <= 1)%Z /\ orderly older
  end.

(** The job the worker is busy with was the [n]-th one dequeued. *)
Definition busy (n : nat) (job : Job) (notified : bool) (b : Bot) : Prop :=
  S n = served b /\
  (forall m, m < n -> Finished m ∈ log b) /\
  exists j later earlier,
    log b = later ++ Dequeued n j :: earlier /\ same_request j job /\
    (notified = true -> Exists (outcome_for (chat_id j)) later).

Definition pc_inv (b : Bot) : Prop :=
  match pc b with
  | AtGet => (forall m, m < served b -> Finished m ∈ log b) /\ in_flight (log b) = 0%Z
  | AtProcessingNotice n job => busy n job false b /\ in_flight (log b) = 0%Z
  | AtExecutor n job => busy n job false b /\ in_flight (log b) = 1%Z
  | AtNoResultsNotice n job | AtSendDocument n job _ | AtErrorNotice n job =>
      busy n job true b /\ in_flight (log b) = 0%Z
  | Stopped => True
  end.

(** The invariant of the bot. *)
Definition Inv (b : Bot) : Prop :=
  enqueued_jobs (log b) = dequeued_jobs (log b) ++ request_queue b /\
  List.length (dequeued_jobs (log b)) = served b /\
  (forall n j, Dequeued n j ∈ log b -> dequeued_jobs (log b) !! n = Some j) /\
  orderly (log b) /\
  pc_inv b.

(** Events that neither put a job into the queue nor take one out. *)
Definition quiet (e : Event) : Prop :=
  match e with Enqueued _ | Dequeued _ _ => False | _ => True end.

(** *** Notions for the rest of the code *)

(** A string that survives being written on a line of its own and read
    back: not empty, without white space at its ends, without a line
    boundary. *)
Definition storable (x : str) : Prop :=
  x <> [] /\ strip x = x /\ Forall (fun c => is_line_boundary c = false) x.

(** The calls of [on_progress] made while [count] records are accepted
    after the first [from] ones. *)
Definition expected_progress (on_progress : bool) (from count : nat) : list nat :=
  if on_progress then List.seq (S from) count else [].

Definition counted (on_progress : bool) (st st' : State) : Prop :=
  exists k, List.length (results st') = List.length (results st) + k /\
    progress st' = progress st ++ expected_progress on_progress (List.length (results st)) k.

(** A record built from a row of a listing page of [web] and from the
    sections of the detail page the row links to. *)
Definition from_site (web : Web) (r : DetailRecord) : Prop :=
  exists listing_url listing_page row detail_page,
    web listing_url = Some listing_page /\
    row ∈ _extract_search_results listing_page /\
    detail_url r = absolute (detail_path row) /\
    web (detail_url r) = Some detail_page /\
    details r = _extract_detail_sections detail_page /\
    rec_corporate_name r = corporate_name row /\
    rec_document_number r = document_number row /\
    rec_status r = status row.

(** A [div.detailSection] contributes its stripped label and value when it
    has two spans and the label is not blank. *)
Definition section_entry (spans : list str) : option (str * str) :=
  match spans with
  | s0 :: s1 :: _ => if truthy (strip s0) then Some (strip s0, strip s1) else None
  | _ => None
  end.

Definition clean_sections (sections : gmap str str) : Prop :=
  forall label value, sections !! label = Some value ->
    label <> [] /\ strip label = label /\ strip value = value.

(** The row a [tr] yields: none unless it has three cells and a link in
    the first. *)
Definition row_of (cells : list Cell) : option ResultRow :=
  match cells with
  | c0 :: c1 :: c2 :: _ =>
      match td_links c0 with
      | [] => None
      | link :: _ =>
          Some {| corporate_name := strip (a_text link);
                  document_number := strip (td_text c1);
                  status := strip (td_text c2);
                  detail_path := default [] (a_href link) |}
      end
  | _ => None
  end.

Definition stripped_row (row : ResultRow) : Prop :=
  strip (corporate_name row) = corporate_name row /\
  strip (document_number row) = document_number row /\
  strip (status row) = status row.




(** The count of a job lies within the configured bounds. *)
Definition bounded (cfg : Config) (job : Job) : Prop :=
  (1 <= count job <= max_addresses cfg)%Z.

(** The job the worker is busy with, and its number. *)
Definition current_job (p : Pc) : option (nat * Job) :=
  match p with
  | AtProcessingNotice n job | AtExecutor n job | AtNoResultsNotice n job
  | AtSendDocument n job _ | AtErrorNotice n job => Some (n, job)
  | AtGet | Stopped => None
  end.

Definition Counts (cfg : Config) (b : Bot) : Prop :=
  Forall (bounded cfg) (request_queue b) /\
  queue_size b = Z.of_nat (List.length (request_queue b)) /\
  (forall n job, current_job (pc b) = Some (n, job) ->
     bounded cfg job /\ Dequeued n job ∈ log b) /\
  (forall n job, FetchStart n job ∈ log b -> bounded cfg job /\ Dequeued n job ∈ log b).

(** A capital letter A-Z made small; any other character as it is. *)
Definition small_letter (c : ascii) : ascii :=
  if between 65 90 (ord c) then chr (ord c + 32) else c.

Definition small_letters (s : str) : str := map small_letter s.

(** [k'] on arguments whose capital letters were made small is [k]. *)
Definition lowered (k' k : option ascii -> str -> bool) : Prop :=
  forall p s, k' (small_letter <$> p) (small_letters s) = k p s.

(** No file is at [path]. *)
Definition no_file (fs : FileSystem) (path : str) : Prop :=
  fs path = None \/ fs path = Some StatFails.

End Spec.

(* ===================================================================== *)
(** ** Example sites *)
(* ===================================================================== *)

Module Examples.
Import PyStr Re Main TelegramBot Spec.

Definition anchor (text href : string) : Anchor :=
  {| a_text := py text; a_href := Some (py href) |}.

Definition cell (text : string) : Cell := {| td_text := py text; td_links := [] |}.

Definition name_cell (name href : string) : Cell :=
  {| td_text := py name; td_links := [anchor name href] |}.

Definition listing (rows : list (list Cell)) : Page :=
  {| table_rows := rows; detail_divs := []; next_list_links := [] |}.

Definition detail (sections : list (string * string)) : Page :=
  {| table_rows := [];
     detail_divs := map (fun '(label, value) => [py label; py value]) sections;
     next_list_links := [] |}.

(** A site given by the pages at some URLs; navigating elsewhere raises. *)
Fixpoint site (pages : list (string * Page)) (url : str) : option Page :=
  match pages with
  | [] => None
  | (u, page) :: pages' =>
      if bool_decide (url = py u) then Some page else site pages' url
  end.

Definition no_files : FileSystem := fun _ => None.

Definition start_url : str := py "https://search.sunbiz.org/list".

(** One entity, whose principal address is a PO Box and whose mailing
    address is a street address. *)
Definition po_box_site : Web :=
  site [("https://search.sunbiz.org/list",
         listing [[name_cell "ACME LLC" "/detail/1"; cell "L1"; cell "Active"]]);
        ("https://search.sunbiz.org/detail/1",
         detail [("Principal Address", "PO Box 1"); ("Mailing Address", "123 Main St")])].

Definition po_box_record : DetailRecord :=
  {| rec_corporate_name := py "ACME LLC";
     rec_document_number := py "L1";
     rec_status := py "Active";
     detail_url := py "https://search.sunbiz.org/detail/1";
     details := <[py "Mailing Address" := py "123 Main St"]>
                  (<[py "Principal Address" := py "PO Box 1"]> ∅) |}.

(** Three entities with the addresses "PO Box 9", "100 Oak Ave" and
    "100 Oak Ave" again. *)
Definition oak_site : Web :=
  site [("https://search.sunbiz.org/list",
         listing [[name_cell "A" "/detail/1"; cell "L1"; cell "Active"];
                  [name_cell "B" "/detail/2"; cell "L2"; cell "Active"];
                  [name_cell "C" "/detail/3"; cell "L3"; cell "Active"]]);
        ("https://search.sunbiz.org/detail/1", detail [("Principal Address", "PO Box 9")]);
        ("https://search.sunbiz.org/detail/2", detail [("Principal Address", "100 Oak Ave")]);
        ("https://search.sunbiz.org/detail/3", detail [("Principal Address", "100 Oak Ave")])].

Definition oak_record : DetailRecord :=
  {| rec_corporate_name := py "B";
     rec_document_number := py "L2";
     rec_status := py "Active";
     detail_url := py "https://search.sunbiz.org/detail/2";
     details := <[py "Principal Address" := py "100 Oak Ave"]> ∅ |}.

(** A site on which every URL shows the same empty page. *)
Definition blank_site : Web := fun _ => Some (listing []).

(** A seen store at [seen.txt]. *)
Definition one_file (text : string) : FileSystem :=
  fun path => if bool_decide (path = py "seen.txt") then Some (TextFile (py text)) else None.

(** The bot with two requests queued and the first one handed to the
    executor. *)
Definition bot_cfg : Config := {| max_addresses := 100; data_dir := py "data/bot" |}.

Definition two_requests : list Input :=
  [Enqueue 1 (py "water") 10; Enqueue 2 (py "plumber") 5; Resume Done; Resume Done].

Definition water_job : Job := {| chat_id := 1; keyword := py "water"; count := 10 |}.

(** A world in which the pipeline raises. *)
Definition broken_world : Executor :=
  {| mkdir_error := None;
     fetch := fun _ _ _ => Raise (BrowserError (py "https://search.sunbiz.org"));
     file_exists := fun _ => false |}.

(** The state in which the run over [oak_site] ends. *)
Definition oak_state : State :=
  {| results := [oak_record]; seen := {[py "100 Oak Ave"]}; progress := [1] |}.

Definition seen_txt : option PathLike := Some (AsStr (py "seen.txt")).

(** A disk without any file, on which a name has 255 bytes at most. *)
Definition NAME_MAX : nat := 255.

Definition empty_disk : FileSystem :=
  fun path =>
    if existsb (fun part => NAME_MAX <? List.length part) (split_on "/" path)
    then Some StatFails else None.

(** The seen path the worker makes for a keyword of 256 letters. *)
Definition long_keyword : str := List.repeat "a"%char 256.

Definition long_seen_path : str :=
  in_dir (py "data/bot") (term_clean long_keyword ++ py "_seen.txt").

(** A detail page with the label "Status" twice. *)
Definition status_twice : Page :=
  detail [("Status", "INACTIVE"); ("Filing", "2001"); ("Status", " ACTIVE ")].

(** A listing whose only link leads on. *)
Definition page_with_next : Page :=
  {| table_rows := []; detail_divs := [];
     next_list_links := [anchor "Next List" "/Inquiry/next"] |}.

(** The bot with the first of two requests handed to the executor. *)
Definition busy_bot : Bot := run_bot bot_cfg two_requests.

(** A world in which the pipeline returns one record and the text file
    exists. *)
Definition good_world : Executor :=
  {| mkdir_error := None;
     fetch := fun _ _ _ => Return [oak_record];
     file_exists := fun _ => true |}.

End Examples.

Import PyStr Re Main TelegramBot Spec Examples.

#[local] Set Warnings "-clear-no-such-hyp".

(* ===================================================================== *)
(** ** Normalization *)
(* ===================================================================== *)


Lemma split_from_space cur c s :
  isspace c = true -> split_from cur (c :: s) = flush cur ++ split s.
Proof. intros H. simpl. rewrite H. unfold flush, split. by destruct cur. Qed.

Lemma split_from_char cur c s :
  isspace c = false -> split_from cur (c :: s) = split_from (cur ++ [c]) s.
Proof. intros H. simpl. by rewrite H. Qed.

Lemma split_from_nil cur : split_from cur [] = flush cur.
Proof. done. Qed.

Lemma flush_tokens cur :
  Forall (fun c => isspace c = false) cur -> Forall is_token (flush cur).
Proof.
  intros H. unfold flush. destruct cur; simpl; [constructor|].
  apply Forall_cons. split; [|constructor]. split; done.
Qed.

Lemma split_from_tokens s : forall cur,
  Forall (fun c => isspace c = false) cur ->
  Forall is_token (split_from cur s).
Proof.
  induction s as [|c s IH]; intros cur Hcur.
  - rewrite split_from_nil. apply flush_tokens, Hcur.
  - destruct (isspace c) eqn:Hc.
    + rewrite split_from_space by done. apply Forall_app. split.
      * apply flush_tokens, Hcur.
      * apply IH. constructor.
    + rewrite split_from_char by done. apply IH.
      apply Forall_app. split; [done|]. by repeat constructor.
Qed.

Lemma split_tokens s : Forall is_token (split s).
Proof. apply split_from_tokens. constructor. Qed.

(** Reading a token extends the current run. *)
Lemma split_from_token w : forall cur s,
  Forall (fun c => isspace c = false) w ->
  split_from cur (w ++ s) = split_from (cur ++ w) s.
Proof.
  induction w as [|c w IH]; intros cur s Hw; simpl app.
  - by rewrite app_nil_r.
  - inversion Hw; subst. rewrite split_from_char by done.
    rewrite IH by done. by rewrite <- app_assoc.
Qed.

Lemma split_join ws :
  Forall is_token ws -> split (join (py " ") ws) = ws.
Proof.
  induction ws as [|w ws IH]; intros H; [done|].
  inversion H as [|? ? [Hne Hw] Hws]; subst.
  destruct ws as [|w' ws].
  - simpl. unfold split. rewrite <- (app_nil_r w) at 1.
    rewrite split_from_token by done. simpl. by destruct w.
  - change (join (py " ") (w :: w' :: ws)) with (w ++ py " " ++ join (py " ") (w' :: ws)).
    unfold split at 1. rewrite split_from_token by done.
    change (py " " ++ ?t) with (" "%char :: t).
    rewrite split_from_space by done. rewrite IH by done.
    unfold flush. by destruct w.
Qed.

Lemma lstrip_token_start c s : isspace c = false -> lstrip (c :: s) = c :: s.
Proof. intros H. simpl. by rewrite H. Qed.

Lemma join_head sep w ws :
  w <> [] -> exists c t, join sep (w :: ws) = c :: t /\ head w = Some c.
Proof.
  intros Hw. destruct w as [|c w]; [done|]. destruct ws; simpl; eauto.
Qed.

Lemma join_last sep ws w :
  w <> [] -> last (join sep (ws ++ [w])) = last w.
Proof.
  intros Hw. induction ws as [|v ws IH]; [done|].
  destruct ws as [|v' ws].
  - simpl. rewrite !last_app. destruct (last w) eqn:E; [done|].
    apply last_None in E. done.
  - change (join sep ((v :: v' :: ws) ++ [w])) with (v ++ sep ++ join sep ((v' :: ws) ++ [w])).
    rewrite !last_app. rewrite IH. destruct (last w) eqn:E; [done|].
    apply last_None in E. done.
Qed.

Lemma strip_fixed s :
  (forall c, head s = Some c -> isspace c = false) ->
  (forall c, last s = Some c -> isspace c = false) ->
  strip s = s.
Proof.
  intros Hh Hl. unfold strip, rstrip.
  assert (lstrip s = s) as ->.
  { destruct s as [|c s]; [done|]. apply lstrip_token_start. by apply Hh. }
  assert (lstrip (rev s) = rev s) as ->.
  { destruct (rev s) as [|c t] eqn:E; [done|]. apply lstrip_token_start.
    apply Hl. rewrite <- (rev_involutive s), E. simpl. by rewrite last_snoc. }
  apply rev_involutive.
Qed.

Lemma strip_join ws :
  Forall is_token ws -> strip (join (py " ") ws) = join (py " ") ws.
Proof.
  intros H. apply strip_fixed.
  - destruct ws as [|w ws]; [done|]. apply Forall_cons in H as [[Hne Hw] _].
    destruct (join_head (py " ") w ws Hne) as (c & t & -> & Hc).
    intros c' [= <-]. destruct w; simplify_eq/=. by inversion Hw.
  - destruct (decide (ws = [])) as [->|Hne]; [done|].
    destruct (exists_last Hne) as (ws' & w & ->).
    apply Forall_app in H as [_ H]. apply Forall_cons in H as [[Hw Hall] _].
    rewrite join_last by done. intros c Hc.
    rewrite Forall_forall in Hall. apply Hall.
    apply last_Some in Hc as [l' ->]. set_solver.
Qed.

Lemma replace_cons old new c s :
  replace old new (c :: s) = (if Ascii.eqb c old then new else [c]) ++ replace old new s.
Proof. done. Qed.

(** Replacing line feeds by spaces does not change the words. *)
Lemma split_from_replace s : forall cur,
  split_from cur (replace LF (py " ") s) = split_from cur s.
Proof.
  induction s as [|c s IH]; intros cur; [done|].
  rewrite replace_cons. destruct (Ascii.eqb c LF) eqn:E.
  - apply Ascii.eqb_eq in E as ->.
    change (py " " ++ ?t) with (" "%char :: t).
    rewrite !split_from_space by done. unfold split. by rewrite IH.
  - change ([c] ++ ?t) with (c :: t). destruct (isspace c) eqn:Hc.
    + rewrite !split_from_space by done. unfold split. by rewrite IH.
    + rewrite !split_from_char by done. apply IH.
Qed.

Lemma normalize_eq addr :
  _normalize_address addr = join (py " ") (split addr).
Proof.
  unfold _normalize_address, split. rewrite split_from_replace.
  apply strip_join, split_tokens.
Qed.

Lemma normalize_idempotent x :
  _normalize_address (_normalize_address x) = _normalize_address x.
Proof.
  rewrite !normalize_eq. rewrite split_join; [done|]. apply split_tokens.
Qed.

Lemma split_from_kind a c d b : forall cur,
  isspace c = true -> isspace d = true ->
  split_from cur (a ++ c :: b) = split_from cur (a ++ d :: b).
Proof.
  induction a as [|e a IH]; intros cur Hc Hd; simpl app.
  - by rewrite !split_from_space.
  - destruct (isspace e) eqn:He.
    + rewrite !split_from_space by done. unfold split. by rewrite IH.
    + rewrite !split_from_char by done. by apply IH.
Qed.

Lemma split_from_run a c d b : forall cur,
  isspace c = true -> isspace d = true ->
  split_from cur (a ++ c :: d :: b) = split_from cur (a ++ d :: b).
Proof.
  induction a as [|e a IH]; intros cur Hc Hd; simpl app.
  - rewrite !split_from_space by done. unfold split at 1.
    by rewrite split_from_space.
  - destruct (isspace e) eqn:He.
    + rewrite !split_from_space by done. unfold split. by rewrite IH.
    + rewrite !split_from_char by done. by apply IH.
Qed.

Lemma split_from_trailing a c : forall cur,
  isspace c = true -> split_from cur (a ++ [c]) = split_from cur a.
Proof.
  induction a as [|e a IH]; intros cur Hc; simpl app.
  - rewrite split_from_space by done. unfold split. simpl. by rewrite app_nil_r.
  - destruct (isspace e) eqn:He.
    + rewrite !split_from_space by done. unfold split. by rewrite IH.
    + rewrite !split_from_char by done. by apply IH.
Qed.

Lemma ws_step_split x y : ws_step x y -> split x = split y.
Proof.
  destruct 1 as [a c d b Hc Hd|a c d b Hc Hd|c b Hc|a c Hc]; unfold split.
  - by apply split_from_kind.
  - by apply split_from_run.
  - by rewrite split_from_space.
  - by apply split_from_trailing.
Qed.

Lemma same_up_to_whitespace_split x y :
  same_up_to_whitespace x y -> split x = split y.
Proof.
  induction 1 as [|x y z [H|H] _ IH]; [done| |].
  - by rewrite (ws_step_split _ _ H).
  - by rewrite <- (ws_step_split _ _ H).
Qed.

Lemma normalize_whitespace_insensitive x y :
  same_up_to_whitespace x y -> _normalize_address x = _normalize_address y.
Proof. intros H. rewrite !normalize_eq. by rewrite (same_up_to_whitespace_split x y). Qed.

(* ===================================================================== *)
(** ** The matcher finds what the pattern means *)
(* ===================================================================== *)


Section MatcherCorrect.
Variable i : bool.

Lemma last_char_nil prev : last_char prev [] = prev.
Proof. done. Qed.

Lemma last_char_cons prev c w : last_char prev (c :: w) = last_char (Some c) w.
Proof.
  unfold last_char. destruct w as [|d w]; [done|].
  change (last (c :: d :: w)) with (last (d :: w)).
  destruct (last (d :: w)) eqn:E; [done|]. by apply last_None in E.
Qed.

Lemma last_char_app prev w1 w2 :
  last_char prev (w1 ++ w2) = last_char (last_char prev w1) w2.
Proof.
  revert prev. induction w1 as [|c w1 IH]; intros prev; [done|].
  simpl app. rewrite !last_char_cons. apply IH.
Qed.

Lemma star_then_spec a k : forall s prev,
  star_then i a prev s k = true <->
  exists w rest, s = w ++ rest /\ forallb (accepts i a) w = true /\
                 k (last_char prev w) rest = true.
Proof.
  induction s as [|c s IH]; intros prev; simpl.
  - split.
    + intros H. by exists [], [].
    + intros (w & rest & Hs & _ & Hk). symmetry in Hs.
      apply app_eq_nil in Hs as [-> ->]. done.
  - rewrite orb_true_iff, andb_true_iff, IH. split.
    + intros [[Hc (w & rest & -> & Hw & Hk)]|Hk].
      * exists (c :: w), rest. rewrite last_char_cons. simpl. by rewrite Hc, Hw.
      * by exists [], (c :: s).
    + intros (w & rest & Hs & Hw & Hk). destruct w as [|d w].
      * right. simpl in Hs. by subst.
      * left. simpl in Hs. injection Hs as <- ->. simpl in Hw.
        apply andb_true_iff in Hw as [Hd Hw]. split; [done|].
        exists w, rest. by rewrite last_char_cons in Hk.
Qed.

Lemma match_then_spec r : forall k s prev,
  match_then i r prev s k = true <->
  exists w rest, s = w ++ rest /\ Matches i r prev w rest /\
                 k (last_char prev w) rest = true.
Proof.
  induction r as [a|a|a| |r1 IH1 r2 IH2|r1 IH1 r2 IH2]; intros k s prev; simpl.
  - split.
    + destruct s as [|c s]; [done|]. intros [Hc Hk]%andb_true_iff.
      exists [c], s. split; [done|]. split; [by constructor|done].
    + intros (w & rest & -> & HM & Hk). inversion HM; subst. simpl.
      by rewrite andb_true_iff.
  - split.
    + destruct s as [|c s].
      * intros Hk. exists [], []. split; [done|]. split; [constructor|done].
      * intros [[Hc Hk]%andb_true_iff|Hk]%orb_true_iff.
        -- exists [c], s. split; [done|]. split; [by constructor|done].
        -- exists [], (c :: s). split; [done|]. split; [constructor|done].
    + intros (w & rest & -> & HM & Hk). inversion HM; subst; simpl.
      * rewrite orb_true_iff, andb_true_iff. by left.
      * destruct rest; [done|]. rewrite orb_true_iff. by right.
  - rewrite star_then_spec. split.
    + intros (w & rest & -> & Hw & Hk). exists w, rest.
      split; [done|]. split; [by constructor|done].
    + intros (w & rest & -> & HM & Hk). inversion HM; subst. by exists w, rest.
  - rewrite andb_true_iff. split.
    + intros [Hb Hk]. exists [], s. split; [done|]. split; [by constructor|done].
    + intros (w & rest & -> & HM & Hk). inversion HM; subst. done.
  - rewrite IH1. split.
    + intros (w1 & rest1 & -> & HM1 & (w2 & rest & -> & HM2 & Hk)%IH2).
      exists (w1 ++ w2), rest. rewrite <- app_assoc. split; [done|].
      split; [by constructor|]. by rewrite last_char_app.
    + intros (w & rest & -> & HM & Hk). inversion HM; subst.
      exists w1, (w2 ++ rest). rewrite <- app_assoc. split; [done|].
      split; [done|]. apply IH2. exists w2, rest.
      by rewrite last_char_app in Hk.
  - rewrite orb_true_iff, IH1, IH2. split.
    + intros [(w & rest & -> & HM & Hk)|(w & rest & -> & HM & Hk)];
        exists w, rest; (split; [done|]); (split; [|done]).
      * by apply M_Alt_l.
      * by apply M_Alt_r.
    + intros (w & rest & -> & HM & Hk). inversion HM; subst; [left|right];
        by exists w, rest.
Qed.

Lemma match_here_spec r prev s :
  match_here i r prev s = true <->
  exists w rest, s = w ++ rest /\ Matches i r prev w rest.
Proof.
  unfold match_here. rewrite match_then_spec. split.
  - intros (w & rest & ? & ? & _). eauto.
  - intros (w & rest & ? & ?). eauto 6.
Qed.

Lemma search_from_spec r : forall s prev,
  search_from i r prev s = true <->
  exists before w after,
    s = before ++ w ++ after /\ Matches i r (last_char prev before) w after.
Proof.
  induction s as [|c s IH]; intros prev; simpl;
    rewrite orb_true_iff, match_here_spec.
  - split.
    + intros [(w & rest & Hs & HM)|[=]]. exists [], w, rest. by split.
    + intros (before & w & rest & Hs & HM). left.
      symmetry in Hs. apply app_eq_nil in Hs as [-> Hs]. by exists w, rest.
  - rewrite IH. split.
    + intros [(w & rest & Hs & HM)|(before & w & rest & -> & HM)].
      * exists [], w, rest. by split.
      * exists (c :: before), w, rest. by rewrite last_char_cons.
    + intros (before & w & rest & Hs & HM). destruct before as [|d before].
      * left. by exists w, rest.
      * right. simpl in Hs. injection Hs as <- ->.
        exists before, w, rest. by rewrite last_char_cons in HM.
Qed.

Lemma Matches_lang r : forall prev w rest,
  no_boundary r = true -> (Matches i r prev w rest <-> lang i r w).
Proof.
  induction r as [a|a|a| |r1 IH1 r2 IH2|r1 IH1 r2 IH2]; intros prev w rest Hnb; simpl.
  - split.
    + inversion 1; subst. eauto.
    + intros (c & -> & Hc). by constructor.
  - split.
    + inversion 1; subst; eauto.
    + intros [->|(c & -> & Hc)]; by constructor.
  - split.
    + by inversion 1; subst.
    + by constructor.
  - done.
  - simpl in Hnb. apply andb_true_iff in Hnb as [H1 H2]. split.
    + inversion 1; subst. exists w1, w2. split; [done|].
      split; [by eapply IH1|by eapply IH2].
    + intros (w1 & w2 & -> & L1 & L2). constructor; [by apply IH1|by apply IH2].
  - simpl in Hnb. apply andb_true_iff in Hnb as [H1 H2]. split.
    + inversion 1; subst; [left; by eapply IH1|right; by eapply IH2].
    + intros [L|L]; [apply M_Alt_l; by apply IH1|apply M_Alt_r; by apply IH2].
Qed.

End MatcherCorrect.

(* ===================================================================== *)
(** ** What [PO_BOX_PATTERN] means *)
(* ===================================================================== *)


Ltac each_char c := destruct c as [[] [] [] [] [] [] [] []].

Lemma is_word_lower c : is_word (lower_char c) = is_word c.
Proof. each_char c; reflexivity. Qed.

Lemma lower_char_dot c : lower_char c = "."%char -> c = "."%char.
Proof. each_char c; vm_compute; congruence. Qed.

Lemma whitespace_only_forallb s :
  whitespace_only s <-> forallb (accepts true Space) s = true.
Proof.
  unfold whitespace_only. induction s as [|c s IH]; simpl.
  - split; [done|constructor].
  - rewrite Forall_cons, andb_true_iff, IH. done.
Qed.

Lemma lang_opt_dot w : lang true (Opt dot) w <-> opt_dot w.
Proof.
  simpl. split.
  - intros [->|(c & -> & Hc)]; [constructor|].
    apply Ascii.eqb_eq, lower_char_dot in Hc as ->. constructor.
  - destruct 1; [by left|right]. by exists "."%char.
Qed.

Lemma lang_star_space w : lang true (Star Space) w <-> whitespace_only w.
Proof. simpl. by rewrite whitespace_only_forallb. Qed.

Lemma spelled_cons a s w :
  spelled (String a s) w <->
  exists c w', w = c :: w' /\ lower_char c = a /\ spelled s w'.
Proof.
  unfold spelled, lower. simpl. split.
  - destruct w as [|c w']; [done|]. simpl. intros [= Hc Hw]. eauto.
  - intros (c & w' & -> & Hc & Hw). simpl. by rewrite Hc, Hw.
Qed.

Lemma spelled_nil w : spelled "" w <-> w = [].
Proof. unfold spelled, lower. simpl. destruct w; split; done. Qed.

Lemma lang_word_then s r : forall w,
  lower (py s) = py s ->
  lang true (word_then s r) w <->
  exists pre w', w = pre ++ w' /\ spelled s pre /\ lang true r w'.
Proof.
  unfold word_then. induction s as [|a s IH]; intros w Hlow; simpl.
  - split.
    + intros H. exists [], w. split; [done|]. split; [by apply spelled_nil|done].
    + intros (pre & w' & -> & ->%spelled_nil & H). done.
  - simpl in Hlow. injection Hlow as Ha Hs. split.
    + intros (w1 & w2 & -> & (c & -> & Hc) & (pre & w' & -> & Hpre & H)%IH); [|done].
      exists (c :: pre), w'. split; [done|]. split; [|done].
      apply spelled_cons. exists c, pre. split; [done|]. split; [|done].
      apply Ascii.eqb_eq in Hc. congruence.
    + intros (pre & w' & -> & (c & pre' & -> & Hc & Hpre)%spelled_cons & H).
      exists [c], (pre' ++ w'). split; [done|]. split.
      * exists c. split; [done|]. apply Ascii.eqb_eq. congruence.
      * apply IH; [done|]. by exists pre', w'.
Qed.

Lemma lang_exact_word s : forall c w,
  lower (py (String c s)) = py (String c s) ->
  lang true (exact_word c s) w <-> spelled (String c s) w.
Proof.
  unfold exact_word, word. induction s as [|a s IH]; intros c w Hlow.
  - simpl. simpl in Hlow. injection Hlow as Hc. rewrite spelled_cons. split.
    + intros (d & -> & Hd). exists d, []. split; [done|].
      apply Ascii.eqb_eq in Hd. split; [congruence|by apply spelled_nil].
    + intros (d & w' & -> & Hd & ->%spelled_nil). exists d. split; [done|].
      apply Ascii.eqb_eq. congruence.
  - change (lang true (Cat (lit c) (seq (lit a) (map lit (py s)))) w <-> spelled (String c (String a s)) w).
    simpl in Hlow. injection Hlow as Hc Ha Hs. rewrite spelled_cons. simpl lang at 1. split.
    + intros (w1 & w2 & -> & (d & -> & Hd) & H). exists d, w2. split; [done|].
      apply Ascii.eqb_eq in Hd. split; [congruence|]. apply IH; [|done].
      simpl. by rewrite Ha, Hs.
    + intros (d & w' & -> & Hd & H). exists [d], w'. split; [done|]. split.
      * exists d. split; [done|]. apply Ascii.eqb_eq. congruence.
      * apply IH; [|done]. simpl. by rewrite Ha, Hs.
Qed.

Lemma lang_opt_dot_then r w :
  lang true (Cat (Opt dot) r) w <->
  exists d w', w = d ++ w' /\ opt_dot d /\ lang true r w'.
Proof.
  change (lang true (Cat (Opt dot) r) w) with
    (exists w1 w2, w = w1 ++ w2 /\ lang true (Opt dot) w1 /\ lang true r w2).
  split; intros (d & w' & -> & Hd & H); exists d, w'; (split; [done|]);
    (split; [|done]); by apply lang_opt_dot.
Qed.

Lemma lang_spaces_then r w :
  lang true (Cat (Star Space) r) w <->
  exists s w', w = s ++ w' /\ whitespace_only s /\ lang true r w'.
Proof.
  change (lang true (Cat (Star Space) r) w) with
    (exists w1 w2, w = w1 ++ w2 /\ lang true (Star Space) w1 /\ lang true r w2).
  split; intros (d & w' & -> & Hd & H); exists d, w'; (split; [done|]);
    (split; [|done]); by apply lang_star_space.
Qed.

Lemma po_box_spaced_eq :
  po_box_spaced =
  word_then "p" (Cat (Opt dot) (Cat (Star Space)
    (word_then "o" (Cat (Opt dot) (Cat (Star Space) (exact_word "b" "ox")))))).
Proof. reflexivity. Qed.

Lemma post_office_box_eq :
  post_office_box =
  word_then "post" (Cat (Star Space) (word_then "office" (Cat (Star Space) (exact_word "b" "ox")))).
Proof. reflexivity. Qed.

Lemma po_box_dotted_eq :
  po_box_dotted =
  word_then "p" (Cat (Opt dot) (word_then "o" (Cat (Opt dot) (Cat (Opt dot) (exact_word "b" "ox"))))).
Proof. reflexivity. Qed.

Ltac word_inv s H :=
  apply (lang_word_then s) in H as (? & ? & -> & ? & H); [|reflexivity].
Ltac dot_inv H := apply lang_opt_dot_then in H as (? & ? & -> & ? & H).
Ltac spaces_inv H := apply lang_spaces_then in H as (? & ? & -> & ? & H).
Ltac box_inv H := apply (lang_exact_word "ox" "b") in H; [|reflexivity].

Ltac part lem :=
  apply lem; eexists _, _; split; [reflexivity|]; split; [eassumption|].
Ltac word_intro s := apply (lang_word_then s); [reflexivity|];
  eexists _, _; split; [reflexivity|]; split; [eassumption|].
Ltac box_intro := apply (lang_exact_word "ox" "b"); [reflexivity|assumption].

Lemma po_box_lang w : lang true po_box_alternatives w <-> po_box_phrase w.
Proof.
  change (lang true po_box_spaced w \/ lang true post_office_box w \/ lang true po_box_dotted w
          <-> po_box_phrase w).
  rewrite po_box_spaced_eq, post_office_box_eq, po_box_dotted_eq. split.
  - intros [H|[H|H]].
    + word_inv "p"%string H. dot_inv H. spaces_inv H. word_inv "o"%string H.
      dot_inv H. spaces_inv H. box_inv H. by apply phrase_po_box.
    + word_inv "post"%string H. spaces_inv H. word_inv "office"%string H.
      spaces_inv H. box_inv H. by apply phrase_post_office_box.
    + word_inv "p"%string H. dot_inv H. word_inv "o"%string H. dot_inv H. dot_inv H.
      box_inv H. by apply phrase_dotted.
  - destruct 1; [left|right; left|right; right].
    + word_intro "p"%string. part lang_opt_dot_then. part lang_spaces_then.
      word_intro "o"%string. part lang_opt_dot_then. part lang_spaces_then. box_intro.
    + word_intro "post"%string. part lang_spaces_then. word_intro "office"%string.
      part lang_spaces_then. box_intro.
    + word_intro "p"%string. part lang_opt_dot_then. word_intro "o"%string.
      part lang_opt_dot_then. part lang_opt_dot_then. box_intro.
Qed.


Lemma Matches_bounded i r prev w after :
  Matches i (Cat Boundary (Cat r Boundary)) prev w after <->
  at_boundary prev (w ++ after) = true /\ Matches i r prev w after /\
  at_boundary (last_char prev w) after = true.
Proof.
  split.
  - inversion 1 as [| | | | |? ? ? w1 w2 ? H1 H2| |]; subst.
    inversion H1; subst. inversion H2 as [| | | | |? ? ? w3 w4 ? H3 H4| |]; subst.
    inversion H4; subst. rewrite app_nil_r in *. simpl in *. done.
  - intros (Hb & HM & He).
    change w with ([] ++ w). apply M_Cat; [by constructor|].
    rewrite <- (app_nil_r w). apply M_Cat; [by rewrite app_nil_l|by constructor].
Qed.

Lemma last_char_None w : last_char None w = last w.
Proof. unfold last_char. by destruct (last w). Qed.

Lemma spelled_word_chars s w :
  spelled s w -> Forall (fun c => is_word c = true) (py s) ->
  Forall (fun c => is_word c = true) w.
Proof.
  unfold spelled, lower. intros <-. rewrite Forall_map. intros H.
  eapply Forall_impl; [exact H|]. intros c. simpl. by rewrite is_word_lower.
Qed.

Lemma spelled_nonempty a s w : spelled (String a s) w -> w <> [].
Proof. unfold spelled. by destruct w. Qed.

Lemma word_ends (w p rest front box : str) :
  w = p ++ rest -> w = front ++ box -> p <> [] -> box <> [] ->
  Forall (fun c => is_word c = true) p ->
  Forall (fun c => is_word c = true) box ->
  exists c c', head w = Some c /\ is_word c = true /\
               last w = Some c' /\ is_word c' = true.
Proof.
  intros Hp Hbox Hpne Hbne Hpw Hbw.
  destruct p as [|c p]; [done|].
  destruct (exists_last Hbne) as (box' & c' & ->).
  exists c, c'. apply Forall_cons in Hpw as [Hc _].
  apply Forall_app in Hbw as [_ [Hc' _]%Forall_cons].
  split; [by rewrite Hp|]. split; [done|]. split; [|done].
  rewrite Hbox, app_assoc. apply last_snoc.
Qed.

(** A phrase begins and ends with a letter. *)
Lemma phrase_ends w :
  po_box_phrase w ->
  exists c c', head w = Some c /\ is_word c = true /\
               last w = Some c' /\ is_word c' = true.
Proof.
  assert (Wbox : Forall (fun c => is_word c = true) (py "box")) by (by repeat constructor).
  assert (Wp : Forall (fun c => is_word c = true) (py "p")) by (by repeat constructor).
  assert (Wpost : Forall (fun c => is_word c = true) (py "post")) by (by repeat constructor).
  destruct 1 as [p d1 s1 o d2 s2 box Hp _ _ _ _ _ Hbox
                |post s1 office s2 box Hp _ _ _ Hbox
                |p d1 o d2 d3 box Hp _ _ _ _ Hbox].
  - eapply (word_ends _ p _ (p ++ d1 ++ s1 ++ o ++ d2 ++ s2) box);
      [reflexivity|by rewrite <- !app_assoc| | | |];
      eauto using spelled_nonempty, spelled_word_chars.
  - eapply (word_ends _ post _ (post ++ s1 ++ office ++ s2) box);
      [reflexivity|by rewrite <- !app_assoc| | | |];
      eauto using spelled_nonempty, spelled_word_chars.
  - eapply (word_ends _ p _ (p ++ d1 ++ o ++ d2 ++ d3) box);
      [reflexivity|by rewrite <- !app_assoc| | | |];
      eauto using spelled_nonempty, spelled_word_chars.
Qed.

Lemma at_boundary_word prev s c :
  head s = Some c -> is_word c = true ->
  at_boundary prev s = negb (word_at prev).
Proof. unfold at_boundary. intros -> Hc. simpl. rewrite Hc. by destruct (word_at prev). Qed.

Lemma at_boundary_after_word c s :
  is_word c = true -> at_boundary (Some c) s = negb (word_at (head s)).
Proof. unfold at_boundary. simpl. by intros ->. Qed.

Lemma head_app_Some (w after : str) c : head w = Some c -> head (w ++ after) = Some c.
Proof. by destruct w. Qed.

Lemma search_po_box text :
  search PO_BOX_PATTERN text = true <-> contains_phrase_as_words text.
Proof.
  unfold search, contains_phrase_as_words. simpl pattern. simpl IGNORECASE.
  rewrite search_from_spec. split.
  - intros (before & w & after & -> & HM).
    apply Matches_bounded in HM as (Hb & HM & He).
    apply Matches_lang in HM; [|reflexivity]. apply po_box_lang in HM.
    destruct (phrase_ends w HM) as (c & c' & Hh & Hc & Hl & Hc').
    exists before, w, after. split; [done|]. split; [done|].
    rewrite last_char_None in *.
    rewrite (at_boundary_word _ _ c) in Hb by (done || by apply head_app_Some).
    unfold last_char in He. rewrite Hl in He.
    rewrite at_boundary_after_word in He by done.
    split; by apply negb_true_iff.
  - intros (before & w & after & -> & HM & Hb & He).
    exists before, w, after. split; [done|].
    destruct (phrase_ends w HM) as (c & c' & Hh & Hc & Hl & Hc').
    apply Matches_bounded. rewrite last_char_None.
    rewrite (at_boundary_word _ _ c) by (done || by apply head_app_Some).
    unfold last_char. rewrite Hl. rewrite at_boundary_after_word by done.
    rewrite Hb, He. split; [done|]. split; [|done].
    apply Matches_lang; [reflexivity|]. by apply po_box_lang.
Qed.

Lemma lstrip_nil_iff s : lstrip s = [] <-> whitespace_only s.
Proof.
  unfold whitespace_only. induction s as [|c s IH]; simpl.
  - split; [constructor|done].
  - destruct (isspace c) eqn:Hc.
    + rewrite IH, Forall_cons. split; [by split|by intros [_ ?]].
    + split; [done|]. intros [? _]%Forall_cons. congruence.
Qed.

Lemma strip_nil_iff s : strip s = [] <-> whitespace_only s.
Proof.
  unfold strip, rstrip. split.
  - intros H.
    assert (lstrip (rev (lstrip s)) = []) as Hr.
    { apply (f_equal (@rev ascii)) in H. by rewrite rev_involutive in H. }
    apply lstrip_nil_iff in Hr. unfold whitespace_only in Hr.
    assert (whitespace_only (lstrip s)) as Hl.
    { unfold whitespace_only. rewrite <- (rev_involutive (lstrip s)).
      by apply Forall_rev. }
    clear -Hl. unfold whitespace_only in *. induction s as [|c s IH]; [done|].
    simpl in Hl. destruct (isspace c) eqn:Hc; [|by apply Forall_cons in Hl as [? _]; congruence].
    constructor; auto.
  - intros H. apply lstrip_nil_iff in H. by rewrite H.
Qed.

Lemma is_po_box_or_empty_spec text :
  _is_po_box_or_empty text = true <->
  whitespace_only text \/ contains_phrase_as_words text.
Proof.
  unfold _is_po_box_or_empty.
  destruct (negb (truthy text) || negb (truthy (strip text))) eqn:E.
  - split; [|done]. intros _. left. apply strip_nil_iff.
    apply orb_true_iff in E as [E|E].
    + destruct text; [done|discriminate].
    + by destruct (strip text).
  - rewrite search_po_box. split; [by right|]. intros [H|H]; [|done].
    apply strip_nil_iff in H. rewrite H in E. by rewrite orb_true_r in E.
Qed.

(** On the characters of the model the pattern's comparison of letters
    and [str.lower] agree for a word written in small letters. *)
Lemma written_spelled s : lower (py s) = py s -> forall w, written s w <-> spelled s w.
Proof.
  unfold written. change (IGNORECASE PO_BOX_PATTERN) with true.
  induction s as [|a s IH]; intros Hlow w.
  - rewrite spelled_nil. simpl. split; [by inversion 1|intros ->; constructor].
  - simpl in Hlow. injection Hlow as Ha Hs. rewrite spelled_cons.
    change (py (String a s)) with (a :: py s). split.
    + inversion 1 as [|? c ? w' Hc Hw]; subst. exists c, w'. split; [done|].
      simpl in Hc. apply Ascii.eqb_eq in Hc. split; [congruence|by apply IH].
    + intros (c & w' & -> & Hc & Hw). constructor; [|by apply IH].
      simpl. apply Ascii.eqb_eq. congruence.
Qed.

Ltac as_spelled := apply written_spelled; [reflexivity|assumption].

Lemma po_box_match_phrase w : po_box_match w <-> po_box_phrase w.
Proof.
  split; destruct 1.
  - apply phrase_po_box; try assumption; as_spelled.
  - apply phrase_post_office_box; try assumption; as_spelled.
  - apply phrase_dotted; try assumption; as_spelled.
  - apply match_po_box; try assumption; as_spelled.
  - apply match_post_office_box; try assumption; as_spelled.
  - apply match_dotted; try assumption; as_spelled.
Qed.

Lemma is_po_box_or_empty_match text :
  _is_po_box_or_empty text = true <->
  whitespace_only text \/ contains_match_as_words text.
Proof.
  rewrite is_po_box_or_empty_spec.
  assert (contains_phrase_as_words text <-> contains_match_as_words text) as ->; [|done].
  split; intros (before & w & after & -> & H & Hb & Ha); exists before, w, after;
    (split; [done|]); (split; [by apply po_box_match_phrase|done]).
Qed.

(* ===================================================================== *)
(** ** The acceptance gate *)
(* ===================================================================== *)

Lemma startswith_spec p : forall s,
  startswith p s = true <-> exists rest, s = p ++ rest.
Proof.
  induction p as [|a p IH]; intros s; simpl.
  - split; [eauto|done].
  - destruct s as [|b s].
    + split; [done|]. by intros (rest & ?).
    + rewrite andb_true_iff, Ascii.eqb_eq, IH. split.
      * intros [-> (rest & ->)]. eauto.
      * intros (rest & [= -> ->]). eauto.
Qed.

Lemma contains_spec needle : forall hay,
  contains needle hay = true <-> exists before after, hay = before ++ needle ++ after.
Proof.
  induction hay as [|c hay IH]; simpl; rewrite orb_true_iff, startswith_spec.
  - split.
    + intros [(rest & H)|[=]]. by exists [], rest.
    + intros (before & after & H). left. symmetry in H.
      apply app_eq_nil in H as [-> H]. eauto.
  - rewrite IH. split.
    + intros [(rest & H)|(before & after & ->)].
      * by exists [], rest.
      * by exists (c :: before), after.
    + intros (before & after & H). destruct before as [|d before].
      * left. eauto.
      * right. injection H as <- ->. eauto.
Qed.

Lemma contains_address key :
  contains (py "address") (lower key) = true <-> mentions_address key.
Proof.
  rewrite contains_spec. unfold mentions_address, spelled, lower. split.
  - intros (b & a & H).
    apply map_eq_app in H as (before & rest & -> & <- & H).
    apply map_eq_app in H as (mid & after & -> & H & <-).
    by exists before, mid, after.
  - intros (before & mid & after & -> & H).
    exists (map lower_char before), (map lower_char after).
    by rewrite !map_app, H.
Qed.

Lemma has_valid_item_cons key value items :
  has_valid_item ((key, value) :: items) =
  if contains (py "address") (lower key) && truthy value && negb (_is_po_box_or_empty value)
  then true else has_valid_item items.
Proof.
  simpl. destruct (contains _ _), (truthy value), (_is_po_box_or_empty value); done.
Qed.

Lemma not_po_box_truthy value : _is_po_box_or_empty value = false -> truthy value = true.
Proof. by destruct value. Qed.

Lemma has_valid_item_spec items :
  has_valid_item items = true <->
  exists key value, (key, value) ∈ items /\
    contains (py "address") (lower key) = true /\ _is_po_box_or_empty value = false.
Proof.
  induction items as [|[k v] items IH].
  - split; [done|]. intros (? & ? & H & _). by apply elem_of_nil in H.
  - rewrite has_valid_item_cons.
    destruct (contains (py "address") (lower k) && truthy v
              && negb (_is_po_box_or_empty v)) eqn:E.
    + split; [|done]. intros _. exists k, v.
      apply andb_true_iff in E as [[Hk Hv]%andb_true_iff Hpo%negb_true_iff].
      split; [by left|done].
    + rewrite IH. split.
      * intros (key & value & Hin & ?). exists key, value. split; [by right|done].
      * intros (key & value & Hin & Hkey & Hval).
        apply elem_of_cons in Hin as [[= -> ->]|Hin]; [|eauto].
        rewrite Hkey, Hval, (not_po_box_truthy _ Hval) in E. done.
Qed.

Lemma has_valid_address_spec (d : gmap str str) :
  _has_valid_address d = true <->
  exists key value, d !! key = Some value /\ mentions_address key /\
                    _is_po_box_or_empty value = false.
Proof.
  unfold _has_valid_address. rewrite has_valid_item_spec.
  split; intros (key & value & H & Hk & Hv); exists key, value.
  - apply elem_of_map_to_list in H. by rewrite <- contains_address.
  - rewrite elem_of_map_to_list. by rewrite contains_address.
Qed.

(* ===================================================================== *)
(** ** The pagination loop *)
(* ===================================================================== *)

Lemma lstrip_same s : same_up_to_whitespace (lstrip s) s.
Proof.
  induction s as [|c s IH]; simpl; [done|].
  destruct (isspace c) eqn:Hc; [|done].
  etrans; [exact IH|]. apply rtsc_rl. by constructor.
Qed.

Lemma rstrip_snoc s c :
  rstrip (s ++ [c]) = if isspace c then rstrip s else s ++ [c].
Proof.
  unfold rstrip. rewrite rev_unit. simpl. destruct (isspace c); [done|].
  simpl. by rewrite rev_involutive.
Qed.

Lemma rstrip_same s : same_up_to_whitespace (rstrip s) s.
Proof.
  induction s as [|c s IH] using rev_ind; [done|].
  rewrite rstrip_snoc. destruct (isspace c) eqn:Hc; [|done].
  etrans; [exact IH|]. apply rtsc_rl. by constructor.
Qed.

Lemma strip_same s : same_up_to_whitespace (strip s) s.
Proof. unfold strip. etrans; [apply rstrip_same|apply lstrip_same]. Qed.

Lemma normalize_strip s : _normalize_address (strip s) = _normalize_address s.
Proof. apply normalize_whitespace_insensitive, strip_same. Qed.

Lemma fresh_in_turn_app s0 rs1 rs2 :
  fresh_in_turn s0 (rs1 ++ rs2) <->
  fresh_in_turn s0 rs1 /\ fresh_in_turn (keys rs1 ∪ s0) rs2.
Proof.
  revert s0. induction rs1 as [|r rs1 IH]; intros s0; simpl.
  - unfold keys. simpl. rewrite (left_id_L ∅ (∪)). tauto.
  - rewrite IH. unfold keys. simpl.
    replace (list_to_set (map normalized_principal rs1) ∪ ({[normalized_principal r]} ∪ s0))
      with ({[normalized_principal r]} ∪ list_to_set (map normalized_principal rs1) ∪ s0)
      by set_solver.
    tauto.
Qed.

Lemma keys_app rs1 rs2 : keys (rs1 ++ rs2) = keys rs2 ∪ keys rs1.
Proof. unfold keys. rewrite map_app, list_to_set_app_L. set_solver. Qed.

Lemma extends_refl st : extends st st [].
Proof.
  unfold extends, keys. simpl. rewrite app_nil_r.
  split; [done|]. split; [set_solver|]. split; [done|constructor].
Qed.

Lemma extends_trans st1 st2 st3 new1 new2 :
  extends st1 st2 new1 -> extends st2 st3 new2 -> extends st1 st3 (new1 ++ new2).
Proof.
  intros (R1 & S1 & F1 & V1) (R2 & S2 & F2 & V2). unfold extends.
  split; [by rewrite R2, R1, app_assoc|].
  split; [rewrite S2, S1, keys_app; set_solver|].
  split; [apply fresh_in_turn_app; by rewrite <- S1|].
  by apply Forall_app.
Qed.

Lemma extends_accept on_progress row url sections normalized st :
  _has_valid_address sections = true ->
  strip (default [] (sections !! py "Principal Address")) <> [] ->
  normalized = _normalize_address (strip (default [] (sections !! py "Principal Address"))) ->
  normalized ∉ seen st ->
  exists r, details r = sections /\
    extends st (accept on_progress row url sections normalized st) [r].
Proof.
  intros Hv Hne -> Hfresh. eexists. split; [|split; [reflexivity|]]; [done|].
  rewrite normalize_strip in *. unfold keys, has_principal, normalized_principal,
    principal_address. simpl.
  split; [set_solver|]. split; [done|]. by repeat constructor.
Qed.

Lemma for_rows_cons web max_results on_progress row rows st :
  for_rows web max_results on_progress (row :: rows) st =
  if cap_reached max_results st then Return st
  else
    match goto web (absolute (detail_path row)) with
    | Raise e => Raise e
    | Return page =>
        let sections := _extract_detail_sections page in
        if skipped sections st
        then for_rows web max_results on_progress rows st
        else for_rows web max_results on_progress rows
               (accept on_progress row (absolute (detail_path row)) sections
                  (_normalize_address (strip (default [] (sections !! py "Principal Address"))))
                  st)
    end.
Proof.
  unfold skipped. cbn [for_rows].
  destruct (cap_reached max_results st); [done|].
  destruct (goto web (absolute (detail_path row))) as [page|e]; [|done].
  cbv zeta.
  destruct (_has_valid_address (_extract_detail_sections page)); [|done].
  destruct (truthy _); [|done]. by destruct (bool_decide _).
Qed.

Lemma while_step fuel web max_results on_progress url st :
  truthy url = true ->
  while_current_url (S fuel) web max_results on_progress (Some url) st =
  match goto web url with
  | Raise e => Some (Raise e)
  | Return page =>
      match for_rows web max_results on_progress (_extract_search_results page) st with
      | Raise e => Some (Raise e)
      | Return st' =>
          if cap_reached max_results st' then Some (Return st')
          else
            match goto web url with
            | Raise e => Some (Raise e)
            | Return page' =>
                while_current_url fuel web max_results on_progress
                  (_get_next_list_url page') st'
            end
      end
  end.
Proof. intros H. cbn [while_current_url]. by rewrite H. Qed.

Lemma while_done fuel web max_results on_progress url st :
  match url with Some u => truthy u = false | None => True end ->
  while_current_url fuel web max_results on_progress url st = Some (Return st).
Proof.
  destruct url as [u|]; [|by destruct fuel]. intros H.
  destruct fuel; cbn [while_current_url]; by rewrite H.
Qed.

Lemma skipped_false sections st :
  skipped sections st = false ->
  _has_valid_address sections = true /\
  strip (default [] (sections !! py "Principal Address")) <> [] /\
  _normalize_address (strip (default [] (sections !! py "Principal Address"))) ∉ seen st.
Proof.
  unfold skipped. cbv zeta.
  intros [[Hv%negb_false_iff Ht%negb_false_iff]%orb_false_iff Hs]%orb_false_iff.
  split; [done|]. split.
  - intros E. by rewrite E in Ht.
  - by apply bool_decide_eq_false in Hs.
Qed.

Lemma for_rows_extends web max_results on_progress rows : forall st st',
  for_rows web max_results on_progress rows st = Return st' ->
  exists new, extends st st' new.
Proof.
  induction rows as [|row rows IH]; intros st st'.
  - intros [= <-]. eexists. apply extends_refl.
  - rewrite for_rows_cons. destruct (cap_reached max_results st).
    { intros [= <-]. eexists. apply extends_refl. }
    destruct (goto web (absolute (detail_path row))) as [page|e]; [|done].
    cbv zeta. destruct (skipped _ st) eqn:Hskip; [apply IH|].
    apply skipped_false in Hskip as (Hv & Hne & Hfresh).
    intros (new & Hnew)%IH.
    edestruct (extends_accept on_progress row (absolute (detail_path row))
                (_extract_detail_sections page)) as (r & _ & Hr);
      [exact Hv|exact Hne|reflexivity|exact Hfresh|].
    eexists. eapply extends_trans; [exact Hr|exact Hnew].
Qed.

Lemma for_rows_cap web max_results on_progress rows : forall st st',
  under_cap max_results st ->
  for_rows web max_results on_progress rows st = Return st' ->
  under_cap max_results st'.
Proof.
  induction rows as [|row rows IH]; intros st st' Hcap.
  - by intros [= <-].
  - rewrite for_rows_cons. destruct (cap_reached max_results st) eqn:Hreached.
    { by intros [= <-]. }
    destruct (goto web (absolute (detail_path row))) as [page|e]; [|done].
    cbv zeta. destruct (skipped _ st); [by apply IH|].
    apply IH. intros n -> Hn. unfold accept. simpl.
    rewrite length_app. simpl. unfold cap_reached in Hreached.
    apply Z.leb_gt in Hreached. lia.
Qed.

Lemma truthy_cases (url : option str) :
  {u | url = Some u /\ truthy u = true} +
  {match url with Some u => truthy u = false | None => True end}.
Proof.
  destruct url as [u|]; [|by right].
  destruct (truthy u) eqn:E; [left; by exists u|by right].
Qed.

Lemma while_extends fuel web max_results on_progress : forall url st st',
  while_current_url fuel web max_results on_progress url st = Some (Return st') ->
  exists new, extends st st' new.
Proof.
  induction fuel as [|fuel IH]; intros url st st';
    destruct (truthy_cases url) as [(u & -> & Hu)|Hdone];
    try (rewrite while_done by done; intros [= <-]; eexists; apply extends_refl).
  - simpl. by rewrite Hu.
  - rewrite while_step by done.
    destruct (goto web u) as [page|e]; [|done].
    destruct (for_rows _ _ _ _ st) as [st1|e] eqn:Hrows; [|done].
    apply for_rows_extends in Hrows as (new1 & H1).
    destruct (cap_reached max_results st1).
    { intros [= <-]. eauto. }
    intros (new2 & H2)%IH. eexists. eapply extends_trans; eauto.
Qed.

Lemma while_cap fuel web max_results on_progress : forall url st st',
  under_cap max_results st ->
  while_current_url fuel web max_results on_progress url st = Some (Return st') ->
  under_cap max_results st'.
Proof.
  induction fuel as [|fuel IH]; intros url st st' Hcap;
    destruct (truthy_cases url) as [(u & -> & Hu)|Hdone];
    try (rewrite while_done by done; by intros [= <-]).
  - simpl. by rewrite Hu.
  - rewrite while_step by done.
    destruct (goto web u) as [page|e]; [|done].
    destruct (for_rows _ _ _ _ st) as [st1|e] eqn:Hrows; [|done].
    apply for_rows_cap in Hrows; [|done].
    destruct (cap_reached max_results st1).
    { by intros [= <-]. }
    by apply IH.
Qed.

Lemma fetch_returns fuel web fs search_url search_term max_results on_progress seen_path rs :
  fetch_sunbiz_data fuel web fs search_url search_term max_results on_progress seen_path
    = Some (Return rs) ->
  exists seen0 st,
    load_seen fs seen_path = Return seen0 /\
    run fuel web fs search_url search_term max_results on_progress seen_path = Some (Return st) /\
    results st = rs /\
    extends {| results := []; seen := seen0; progress := [] |} st rs /\
    under_cap max_results st.
Proof.
  unfold fetch_sunbiz_data.
  destruct (run _ _ _ _ _ _ _ _) as [[st|e]|] eqn:Hrun; try done. intros [= <-].
  unfold run in Hrun. destruct (load_seen fs seen_path) as [seen0|e] eqn:Hload; [|done].
  exists seen0, st. split; [done|]. split; [done|]. split; [done|].
  pose proof Hrun as (new & Hnew)%while_extends.
  apply while_cap in Hrun.
  - split; [|done]. destruct Hnew as (R & ?). simpl in R. subst new. done.
  - intros n _ Hn. simpl. lia.
Qed.

Lemma fresh_in_turn_spec s0 rs :
  fresh_in_turn s0 rs ->
  NoDup (map normalized_principal rs) /\
  Forall (fun r => normalized_principal r ∉ s0) rs.
Proof.
  revert s0. induction rs as [|r rs IH]; intros s0; simpl.
  - intros _. split; constructor.
  - intros [Hr (Hnd & Hall)%IH]. split.
    + apply NoDup_cons. split; [|done]. intros Hin.
      apply list_elem_of_fmap in Hin as (r' & Heq & Hin).
      rewrite Forall_forall in Hall. apply (Hall r' Hin). set_solver.
    + constructor; [done|]. eapply Forall_impl; [exact Hall|]. set_solver.
Qed.


Lemma goto_Some web url page : web url = Some page -> goto web url = Return page.
Proof. unfold goto. by intros ->. Qed.

Lemma for_rows_result web max_results on_progress rows st :
  exists out, for_rows web max_results on_progress rows st = out.
Proof. eauto. Qed.

Lemma while_terminates web max_results on_progress url n :
  finite_chain web url n ->
  forall fuel st, n <= fuel ->
  exists out, while_current_url fuel web max_results on_progress (Some url) st = Some out.
Proof.
  induction 1 as [url page Hpage Hnext|url page next n Hpage Hnext _ IH];
    intros fuel st Hfuel; (destruct fuel as [|fuel]; [lia|]);
    (destruct (truthy url) eqn:Hurl; [|rewrite while_done by done; eauto]);
    rewrite while_step by done; rewrite (goto_Some _ _ _ Hpage);
    (destruct (for_rows _ _ _ _ st) as [st1|e]; [|eauto]);
    (destruct (cap_reached max_results st1); [eauto|]); rewrite Hnext.
  - rewrite while_done by done. eauto.
  - apply IH. lia.
Qed.

Lemma for_rows_returns web max_results on_progress rows : forall st,
  always_loads web ->
  exists st', for_rows web max_results on_progress rows st = Return st'.
Proof.
  induction rows as [|row rows IH]; intros st Hweb; [by eexists|].
  rewrite for_rows_cons. destruct (cap_reached max_results st); [by eexists|].
  destruct (Hweb (absolute (detail_path row))) as [page Hpage].
  rewrite (goto_Some _ _ _ Hpage). cbv zeta.
  destruct (skipped _ st); by apply IH.
Qed.

Lemma while_returns web max_results on_progress url n :
  finite_chain web url n -> always_loads web ->
  forall fuel st, n <= fuel ->
  exists st', while_current_url fuel web max_results on_progress (Some url) st
              = Some (Return st').
Proof.
  induction 1 as [url page Hpage Hnext|url page next n Hpage Hnext _ IH];
    intros Hweb fuel st Hfuel; (destruct fuel as [|fuel]; [lia|]);
    (destruct (truthy url) eqn:Hurl; [|rewrite while_done by done; eauto]);
    rewrite while_step by done; rewrite (goto_Some _ _ _ Hpage);
    destruct (for_rows_returns web max_results on_progress
                (_extract_search_results page) st Hweb) as [st1 ->];
    (destruct (cap_reached max_results st1); [eauto|]); rewrite Hnext.
  - rewrite while_done by done. eauto.
  - apply IH; [done|lia].
Qed.

Lemma seen_of_text_spec text x :
  x ∈ seen_of_text text <->
  exists line, line ∈ splitlines text /\ x = strip line /\ x <> [].
Proof.
  unfold seen_of_text. rewrite elem_of_list_to_set, list_elem_of_fmap. split.
  - intros (line & -> & Hin). apply list_elem_of_In, filter_In in Hin as [Hin Ht].
    exists line. split; [by apply list_elem_of_In|]. split; [done|].
    by destruct (strip line).
  - intros (line & Hin & -> & Hne). exists line. split; [done|].
    apply list_elem_of_In, filter_In. split; [by apply list_elem_of_In|].
    by destruct (strip line).
Qed.

(* ===================================================================== *)
(** ** The worker *)
(* ===================================================================== *)

Lemma arrivals_spec cfg reqs : forall b,
  pc (arrivals cfg reqs b) = pc b /\
  served (arrivals cfg reqs b) = served b /\
  request_queue (arrivals cfg reqs b) = request_queue b ++ map (job_of cfg) reqs /\
  log (arrivals cfg reqs b) = rev (map (fun r => Enqueued (job_of cfg r)) reqs) ++ log b.
Proof.
  induction reqs as [|[[chat kw] n] reqs IH]; intros b; simpl.
  - by rewrite app_nil_r.
  - destruct (IH (handle_message cfg chat kw n b)) as (-> & -> & -> & ->). simpl.
    rewrite <- !app_assoc. done.
Qed.

Lemma failing_job_settles cfg b n job world a a' reqs1 reqs2 :
  pc b = AtExecutor n job ->
  invocation_raises cfg world job ->
  cancelled a = false -> cancelled a' = false ->
  let b1 := queue_worker cfg b (Executed world) in
  let b2 := queue_worker cfg (arrivals cfg reqs1 b1) a in
  let b3 := settle cfg (arrivals cfg reqs2 b2) a' in
  (exists e, log b1 = e :: FetchEnd n (run_fetch_sync world (keyword job) (count job)
                                         (data_dir cfg) (seen_path_of cfg job)) :: log b
             /\ failure_notice (chat_id job) e) /\
  pc b3 = AtGet /\
  Finished n ∈ log b3 /\
  exists arrived, request_queue b3 = request_queue b ++ arrived.
Proof.
  intros Hpc Hraise Ha Ha' b1 b2 b3.
  assert (Hb1 : (pc b1 = AtNoResultsNotice n job \/ pc b1 = AtErrorNotice n job) /\
                request_queue b1 = request_queue b /\
                exists e, log b1 = e :: FetchEnd n (run_fetch_sync world (keyword job) (count job)
                                         (data_dir cfg) (seen_path_of cfg job)) :: log b
                          /\ failure_notice (chat_id job) e).
  { subst b1. unfold queue_worker. rewrite Hpc. fold (seen_path_of cfg job).
    unfold run_fetch_sync.
    destruct Hraise as [[e He]|[e He]].
    - rewrite He. simpl. split; [by right|]. split; [done|]. eexists. split; [done|]. done.
    - destruct (mkdir_error world) as [e'|].
      + simpl. split; [by right|]. split; [done|]. eexists. split; [done|]. done.
      + rewrite He. simpl. split; [by left|]. split; [done|]. eexists. split; [done|]. done. }
  destruct Hb1 as (Hpc1 & Hq1 & Hlog1). split; [done|].
  destruct (arrivals_spec cfg reqs1 b1) as (Hp & Hs & Hq & Hl).
  assert (Hb2 : (pc b2 = AtGet \/ pc b2 = AtErrorNotice n job) /\
                request_queue b2 = request_queue b ++ map (job_of cfg) reqs1 /\
                (pc b2 = AtGet -> Finished n ∈ log b2)).
  { subst b2. unfold queue_worker. rewrite Hp.
    destruct Hpc1 as [-> | ->]; destruct a; try done; simpl;
      rewrite Hq, Hq1; (split; [auto|]); (split; [done|]); try done;
      intros _; apply elem_of_cons; by left. }
  destruct Hb2 as (Hpc2 & Hq2 & Hfin2).
  destruct (arrivals_spec cfg reqs2 b2) as (Hp' & Hs' & Hq' & Hl').
  subst b3. unfold settle. rewrite Hp'. destruct Hpc2 as [E|E]; rewrite E.
  - rewrite Hp', E. split; [done|]. split.
    + rewrite Hl'. apply elem_of_app. right. auto.
    + exists (map (job_of cfg) reqs1 ++ map (job_of cfg) reqs2).
      by rewrite Hq', Hq2, <- app_assoc.
  - unfold queue_worker. rewrite Hp', E. destruct a'; try done; simpl;
      (split; [done|]); (split; [apply elem_of_cons; by left|]);
      exists (map (job_of cfg) reqs1 ++ map (job_of cfg) reqs2);
      by rewrite Hq', Hq2, <- app_assoc.
Qed.

(** At [get] with a job waiting, any answer but a cancellation starts it. *)
Lemma next_job_starts cfg b a job queue :
  pc b = AtGet -> request_queue b = job :: queue -> cancelled a = false ->
  let b' := queue_worker cfg b a in
  request_queue b' = queue /\
  exists job', pc b' = AtProcessingNotice (served b) job' /\
    chat_id job' = chat_id job /\ keyword job' = keyword job /\
    log b' = SendMessage (chat_id job) (Processing (keyword job) (count job'))
             :: Dequeued (served b) job :: log b.
Proof.
  intros Hpc Hq Ha. unfold queue_worker. rewrite Hpc, Hq.
  destruct a; try done; simpl; (split; [done|]); eexists; done.
Qed.

Lemma enqueued_cons e l :
  enqueued_jobs (e :: l) =
  enqueued_jobs l ++ match e with Enqueued j => [j] | _ => [] end.
Proof. unfold enqueued_jobs. simpl. rewrite omap_app. by destruct e. Qed.

Lemma dequeued_cons e l :
  dequeued_jobs (e :: l) =
  dequeued_jobs l ++ match e with Dequeued _ j => [j] | _ => [] end.
Proof. unfold dequeued_jobs. simpl. rewrite omap_app. by destruct e. Qed.

Lemma busy_weaken n job notified b b' es :
  log b' = es ++ log b -> served b' = served b ->
  busy n job notified b -> busy n job notified b'.
Proof.
  intros Hl Hs (Hn & Hfin & j & later & earlier & Hlog & Hchat & Hnot).
  split; [by rewrite Hs|]. split.
  - intros m Hm. rewrite Hl. apply elem_of_app. right. auto.
  - exists j, (es ++ later), earlier. rewrite Hl, Hlog, app_assoc.
    split; [done|]. split; [done|]. intros H. apply Exists_app. right. auto.
Qed.

Lemma busy_notify n job b b' e es :
  log b' = e :: es ++ log b -> served b' = served b ->
  outcome_for (chat_id job) e ->
  busy n job false b -> busy n job true b'.
Proof.
  intros Hl Hs He (Hn & Hfin & j & later & earlier & Hlog & Hchat & _).
  split; [by rewrite Hs|]. split.
  - intros m Hm. rewrite Hl. apply elem_of_cons. right. apply elem_of_app. right. auto.
  - exists j, (e :: es ++ later), earlier. rewrite Hl, Hlog. simpl. rewrite <- app_assoc.
    split; [done|]. split; [done|]. intros _. apply Exists_cons. left.
    destruct Hchat as [-> _]. done.
Qed.

Lemma busy_timely n job notified b :
  busy n job notified b -> timely (FetchStart n job) (log b).
Proof.
  intros (_ & Hfin & j & later & earlier & Hlog & Hsame & _). split; [done|].
  exists j. split; [|done]. rewrite Hlog. apply elem_of_app. right. by left.
Qed.

Lemma busy_completed n job b : busy n job true b -> completed n (log b).
Proof.
  intros (_ & _ & j & later & earlier & Hlog & _ & Hnot). exists j, later, earlier. auto.
Qed.

Lemma busy_finished n job notified b m :
  busy n job notified b -> m < served b -> m <> n -> Finished m ∈ log b.
Proof. intros (Hn & Hfin & _) Hm Hne. apply Hfin. lia. Qed.

Lemma Inv_initial : Inv initial.
Proof.
  unfold Inv, pc_inv. simpl. split; [done|]. split; [done|].
  split; [by intros n j H%elem_of_nil|]. split; [done|]. split; [lia|done].
Qed.

Lemma Inv_handle_message cfg chat kw n b : Inv b -> Inv (handle_message cfg chat kw n b).
Proof.
  intros (Hq & Hlen & Hidx & Hord & Hpc). unfold Inv. simpl.
  rewrite enqueued_cons, dequeued_cons, app_nil_r, Hq, app_assoc.
  split; [done|]. split; [done|]. split.
  { intros m j [[=]|H]%elem_of_cons. auto. }
  split.
  { split; [done|]. split; [|done]. destruct (log b); simpl in *; [lia|]. tauto. }
  unfold pc_inv in *. simpl. destruct (pc b); try done;
    destruct Hpc as [Hb Hf]; (split; [|done]).
  - intros m Hm. apply elem_of_cons. right. auto.
  - eapply (busy_weaken _ _ _ b _ [_]); [done|done|done].
  - eapply (busy_weaken _ _ _ b _ [_]); [done|done|done].
  - eapply (busy_weaken _ _ _ b _ [_]); [done|done|done].
  - eapply (busy_weaken _ _ _ b _ [_]); [done|done|done].
  - eapply (busy_weaken _ _ _ b _ [_]); [done|done|done].
Qed.

Lemma enqueued_quiet es l : Forall quiet es -> enqueued_jobs (es ++ l) = enqueued_jobs l.
Proof.
  induction 1 as [|e es He _ IH]; [done|]. simpl. rewrite enqueued_cons, IH.
  destruct e; try done; apply app_nil_r.
Qed.

Lemma dequeued_quiet es l : Forall quiet es -> dequeued_jobs (es ++ l) = dequeued_jobs l.
Proof.
  induction 1 as [|e es He _ IH]; [done|]. simpl. rewrite dequeued_cons, IH.
  destruct e; try done; apply app_nil_r.
Qed.

Lemma Inv_goes b pc' es :
  Inv b -> Forall quiet es -> orderly (es ++ log b) -> pc_inv (goes b pc' es) ->
  Inv (goes b pc' es).
Proof.
  intros (Hq & Hlen & Hidx & _ & _) Hes Hord Hpc. unfold Inv. simpl.
  rewrite enqueued_quiet, dequeued_quiet by done.
  split; [done|]. split; [done|]. split; [|done].
  intros n j [Hin|Hin]%elem_of_app; [|auto].
  rewrite Forall_forall in Hes. by apply Hes in Hin.
Qed.

Ltac inv_goes :=
  apply Inv_goes; [assumption|by repeat constructor| |].

Lemma Inv_queue_worker cfg b a : Inv b -> Inv (queue_worker cfg b a).
Proof.
  intros HI. pose proof HI as (Hq & Hlen & Hidx & Hord & Hpc).
  unfold queue_worker. unfold pc_inv in Hpc.
  destruct (pc b) as [|n job|n job|n job|n job path|n job|] eqn:Epc; [| | | | | |done].
  - (* AtGet *)
    destruct Hpc as [Hfin Hfl].
    assert (Hstop : Inv (goes b Stopped [])).
    { inv_goes; [done|]. by unfold pc_inv. }
    destruct (request_queue b) as [|job queue] eqn:Eq.
    { destruct a; solve [done | exact Hstop]. }
    assert (Hget : Inv
      {| request_queue := queue; queue_size := Z.max 0 (queue_size b - 1);
         pc := AtProcessingNotice (served b)
                 {| chat_id := chat_id job; keyword := keyword job;
                    count := Z.min (count job) (max_addresses cfg) |};
         served := S (served b);
         log := SendMessage (chat_id job)
                  (Processing (keyword job) (Z.min (count job) (max_addresses cfg)))
                :: Dequeued (served b) job :: log b |}).
    { unfold Inv. simpl. rewrite !enqueued_cons, !dequeued_cons, !app_nil_r, Hq.
      split; [by rewrite <- app_assoc|]. split; [rewrite length_app; simpl; lia|].
      split.
      { intros m j [[=]|[[= -> ->]|Hin]%elem_of_cons]%elem_of_cons.
        - rewrite lookup_app_r by lia. by rewrite Hlen, Nat.sub_diag.
        - apply lookup_app_l_Some. auto. }
      split.
      { simpl. rewrite Hfl. repeat (split; [done || lia|]). done. }
      unfold pc_inv. simpl. split; [|done]. split; [done|]. split.
      { intros m Hm. do 2 (apply elem_of_cons; right). auto. }
      eexists job, [_], (log b). split; [done|]. split; [done|]. done. }
    destruct a; solve [exact Hget | exact Hstop].
  - (* AtProcessingNotice *)
    destruct Hpc as [Hbusy Hfl].
    destruct a as [|e|world|].
    + inv_goes.
      * simpl. split; [by eapply busy_timely|]. split; [lia|done].
      * unfold pc_inv. simpl. split; [|lia]. by eapply (busy_weaken _ _ _ b _ [_]).
    + unfold handler. inv_goes.
      * simpl. split; [done|]. split; [lia|done].
      * unfold pc_inv. simpl. split; [|done]. by eapply (busy_notify _ _ b _ _ []).
    + inv_goes.
      * simpl. split; [by eapply busy_timely|]. split; [lia|done].
      * unfold pc_inv. simpl. split; [|lia]. by eapply (busy_weaken _ _ _ b _ [_]).
    + inv_goes; [done|]. by unfold pc_inv.
  - (* AtExecutor *)
    destruct Hpc as [Hbusy Hfl].
    destruct a as [|e|world|]; [done|done| |inv_goes; [done|by unfold pc_inv]].
    destruct (run_fetch_sync _ _ _ _ _) as [[txt|]|e];
      [destruct (file_exists world txt)| |];
      (inv_goes;
       [simpl; rewrite Hfl; repeat (split; [done || lia|]); done
       |unfold pc_inv; simpl; split; [|lia];
        by eapply (busy_notify _ _ b _ _ [_])]).
  - (* AtNoResultsNotice *)
    destruct Hpc as [Hbusy Hfl].
    assert (Hnext : Inv (goes b AtGet [Finished n])).
    { inv_goes.
      - simpl. split; [by eapply busy_completed|]. split; [lia|done].
      - unfold pc_inv. simpl. split; [|done]. intros m Hm.
        destruct (decide (m = n)) as [->|Hne]; [by left|].
        right. by eapply busy_finished. }
    destruct a as [|e|world|]; [done| |done|inv_goes; [done|by unfold pc_inv]].
    unfold handler. inv_goes.
    + simpl. split; [done|]. split; [lia|done].
    + unfold pc_inv. simpl. split; [|done]. by eapply (busy_weaken _ _ _ b _ [_]).
  - (* AtSendDocument *)
    destruct Hpc as [Hbusy Hfl].
    assert (Hnext : Inv (goes b AtGet [Finished n])).
    { inv_goes.
      - simpl. split; [by eapply busy_completed|]. split; [lia|done].
      - unfold pc_inv. simpl. split; [|done]. intros m Hm.
        destruct (decide (m = n)) as [->|Hne]; [by left|].
        right. by eapply busy_finished. }
    destruct a as [|e|world|]; [done| |done|inv_goes; [done|by unfold pc_inv]].
    unfold handler. inv_goes.
    + simpl. split; [done|]. split; [lia|done].
    + unfold pc_inv. simpl. split; [|done]. by eapply (busy_weaken _ _ _ b _ [_]).
  - (* AtErrorNotice *)
    destruct Hpc as [Hbusy Hfl].
    assert (Hnext : Inv (goes b AtGet [Finished n])).
    { inv_goes.
      - simpl. split; [by eapply busy_completed|]. split; [lia|done].
      - unfold pc_inv. simpl. split; [|done]. intros m Hm.
        destruct (decide (m = n)) as [->|Hne]; [by left|].
        right. by eapply busy_finished. }
    destruct a as [|e|world|]; [done|done|done|inv_goes; [done|by unfold pc_inv]].
Qed.

Lemma Inv_run_from cfg inputs : forall b, Inv b -> Inv (fold_left (step cfg) inputs b).
Proof.
  induction inputs as [|i inputs IH]; intros b Hb; [done|]. simpl. apply IH.
  destruct i; [by apply Inv_handle_message|by apply Inv_queue_worker].
Qed.

Lemma Inv_run_bot cfg inputs : Inv (run_bot cfg inputs).
Proof. apply Inv_run_from, Inv_initial. Qed.

Lemma orderly_split l : forall later e older,
  orderly l -> l = later ++ e :: older ->
  timely e older /\ (0 <= in_flight (e :: older) <= 1)%Z.
Proof.
  induction l as [|x l IH]; intros later e older Hord Heq.
  - by destruct later.
  - destruct Hord as (Ht & Hf & Hord). destruct later as [|y later].
    + simpl in Heq. injection Heq as -> ->. done.
    + simpl in Heq. injection Heq as -> ->. by eapply IH.
Qed.

(* ===================================================================== *)
(** ** The properties of the specification *)
(* ===================================================================== *)

Lemma has_principal_acceptable r : has_principal r -> acceptable r.
Proof.
  intros [Hv Hne]. split.
  - intros Hws. by apply strip_nil_iff in Hws.
  - by apply has_valid_address_spec.
Qed.

Lemma extends_from_empty seen0 st rs :
  extends {| results := []; seen := seen0; progress := [] |} st rs ->
  Forall has_principal rs /\ fresh_in_turn seen0 rs.
Proof. intros (_ & _ & Hfresh & Hall). done. Qed.

(** C1, as stated, fails.  On a site with one entity whose principal
    address is "PO Box 1" and whose mailing address is "123 Main St", the
    run accepts the entity: the gate looks for a physical address in any
    address section, and the principal address need only be non-empty. *)
Lemma po_box_principal_is_accepted :
  fetch_sunbiz_data 1 po_box_site no_files (Some start_url) None None false None
    = Some (Return [po_box_record]) /\
  _is_po_box_or_empty (principal_address po_box_record) = true.
Proof. split; vm_compute; reflexivity. Qed.

(** C1 (amended).  Every record returned by a run has a "Principal
    Address" that is not blank, has some address section whose value is
    neither blank nor a PO Box, and has a normalized principal address that
    was not in the seen set when the record was accepted: not among the
    addresses loaded from the seen store, and not that of a record
    accepted earlier in the run. *)
Theorem accepted_records_are_acceptable
    fuel web fs search_url search_term max_results on_progress seen_path seen0 rs :
  load_seen fs seen_path = Return seen0 ->
  fetch_sunbiz_data fuel web fs search_url search_term max_results on_progress seen_path
    = Some (Return rs) ->
  Forall acceptable rs /\ fresh_in_turn seen0 rs.
Proof.
  intros Hload (seen0' & st & Hload' & _ & _ & Hext & _)%fetch_returns.
  rewrite Hload in Hload'. injection Hload' as <-.
  apply extends_from_empty in Hext as [Hall Hfresh]. split; [|done].
  eapply Forall_impl; [exact Hall|]. apply has_principal_acceptable.
Qed.

Lemma accepted_records_are_acceptable_witness :
  Forall acceptable [po_box_record] /\ fresh_in_turn ∅ [po_box_record].
Proof.
  apply (accepted_records_are_acceptable 1 po_box_site no_files (Some start_url)
           None None false None ∅ [po_box_record]).
  - reflexivity.
  - vm_compute; reflexivity.
Defined.

(** C2.  A run with [max_results = N], [N] not negative, returns at most
    [N] records; their normalized principal addresses are pairwise
    distinct, and none of them is in the seen set loaded before the run. *)
Theorem results_capped_distinct_and_new
    fuel web fs search_url search_term N on_progress seen_path seen0 rs :
  (0 <= N)%Z ->
  load_seen fs seen_path = Return seen0 ->
  fetch_sunbiz_data fuel web fs search_url search_term (Some N) on_progress seen_path
    = Some (Return rs) ->
  (Z.of_nat (List.length rs) <= N)%Z /\
  NoDup (map normalized_principal rs) /\
  Forall (fun r => normalized_principal r ∉ seen0) rs.
Proof.
  intros HN Hload (seen0' & st & Hload' & _ & Hrs & Hext & Hcap)%fetch_returns.
  rewrite Hload in Hload'. injection Hload' as <-.
  split; [rewrite <- Hrs; by apply Hcap|].
  apply extends_from_empty in Hext as [_ Hfresh]. by apply fresh_in_turn_spec.
Qed.

Lemma results_capped_distinct_and_new_witness :
  (Z.of_nat (List.length [oak_record]) <= 5)%Z /\
  NoDup (map normalized_principal [oak_record]) /\
  Forall (fun r => normalized_principal r ∉ (∅ : gset str)) [oak_record].
Proof.
  apply (results_capped_distinct_and_new 1 oak_site no_files (Some start_url)
           None 5 true None ∅ [oak_record]).
  - lia.
  - reflexivity.
  - vm_compute; reflexivity.
Defined.

(** C3.  When the listing pages reached from the first URL form a finite
    chain of [n] pages, the last one without a "Next List" link, a run
    that may visit [n] listing pages ends, whatever [max_results] is
    ([None] included): it returns or raises.  When no navigation raises
    and the seen store can be read, it returns. *)
Theorem pagination_terminates
    web fs search_url search_term max_results on_progress seen_path n fuel :
  finite_chain web (initial_url search_url search_term) n ->
  n <= fuel ->
  (exists out,
     fetch_sunbiz_data fuel web fs search_url search_term max_results on_progress seen_path
       = Some out) /\
  (always_loads web ->
   forall seen0, load_seen fs seen_path = Return seen0 ->
   exists rs,
     fetch_sunbiz_data fuel web fs search_url search_term max_results on_progress seen_path
       = Some (Return rs)).
Proof.
  intros Hchain Hfuel. unfold fetch_sunbiz_data, run. split.
  - destruct (load_seen fs seen_path) as [seen0|e]; [|eauto].
    edestruct (while_terminates web max_results on_progress _ _ Hchain fuel) as [out ->];
      [done|]. destruct out; eauto.
  - intros Hweb seen0 ->.
    edestruct (while_returns web max_results on_progress _ _ Hchain Hweb fuel) as [st ->];
      [done|]. eauto.
Qed.

Lemma pagination_terminates_witness :
  exists rs,
    fetch_sunbiz_data 1 blank_site no_files (Some start_url) None None false None
      = Some (Return rs).
Proof.
  refine (proj2 (pagination_terminates blank_site no_files (Some start_url) None None
                   false None 1 1 _ _) _ ∅ _).
  - apply (chain_last blank_site start_url (listing [])); reflexivity.
  - lia.
  - intros url. by eexists.
  - reflexivity.
Defined.

(** C4.  Let the pipeline invocation of a dequeued job raise, in
    [fetch_sunbiz_data] or in the [mkdir] before it.  Then the worker calls
    [send_message] for the requester with a failure notice as soon as the
    invocation is over; after at most two more answers, none of them a
    cancellation, it is back at [request_queue.get()]; the queue holds the
    jobs it held before, followed by those that arrived meanwhile; and the
    next answer makes it take the first of them. *)
Theorem failing_job_does_not_stop_worker
    cfg b n job world a a' a'' reqs1 reqs2 :
  pc b = AtExecutor n job ->
  invocation_raises cfg world job ->
  cancelled a = false -> cancelled a' = false -> cancelled a'' = false ->
  let b1 := queue_worker cfg b (Executed world) in
  let b2 := queue_worker cfg (arrivals cfg reqs1 b1) a in
  let b3 := settle cfg (arrivals cfg reqs2 b2) a' in
  (exists e, log b1 = e :: FetchEnd n (run_fetch_sync world (keyword job) (count job)
                                         (data_dir cfg) (seen_path_of cfg job)) :: log b
             /\ failure_notice (chat_id job) e) /\
  pc b3 = AtGet /\
  Finished n ∈ log b3 /\
  (exists arrived, request_queue b3 = request_queue b ++ arrived) /\
  (forall next queue, request_queue b3 = next :: queue ->
     request_queue (queue_worker cfg b3 a'') = queue /\
     exists job', pc (queue_worker cfg b3 a'') = AtProcessingNotice (served b3) job' /\
                  same_request next job').
Proof.
  intros Hpc Hraise Ha Ha' Ha'' b1 b2 b3.
  destruct (failing_job_settles cfg b n job world a a' reqs1 reqs2 Hpc Hraise Ha Ha')
    as (Hnotice & Hpc3 & Hfin & Hqueue).
  split; [done|]. split; [done|]. split; [done|]. split; [done|].
  intros next queue Hq.
  destruct (next_job_starts cfg b3 a'' next queue Hpc3 Hq Ha'')
    as (Hq' & job' & Hpc' & Hchat & Hkw & _).
  split; [done|]. exists job'. by split.
Qed.

Lemma failing_job_does_not_stop_worker_witness :
  pc (settle bot_cfg
        (arrivals bot_cfg []
           (queue_worker bot_cfg
              (arrivals bot_cfg []
                 (queue_worker bot_cfg (run_bot bot_cfg two_requests) (Executed broken_world)))
              Done))
        Done) = AtGet.
Proof.
  refine (proj1 (proj2 (failing_job_does_not_stop_worker bot_cfg (run_bot bot_cfg two_requests)
                          0 water_job broken_world Done Done Done [] [] _ _ _ _ _))).
  - reflexivity.
  - right. eexists. reflexivity.
  - reflexivity.
  - reflexivity.
  - reflexivity.
Defined.

Lemma dequeued_is_enqueued b n j :
  Inv b -> Dequeued n j ∈ log b -> enqueued_jobs (log b) !! n = Some j.
Proof.
  intros (Hq & _ & Hidx & _ & _) Hin. rewrite Hq. apply lookup_app_l_Some. auto.
Qed.

(** C5.  Whatever requests arrive and however the awaited calls answer:
    the jobs are taken from the queue in the order in which they were put
    into it; when the pipeline is started for the job enqueued at position
    [n2], every job enqueued at an earlier position [n1] has finished its
    turn of the loop before, and its document or failure notice was sent
    before that; and at every moment at most one pipeline invocation is
    started and not yet over. *)
Theorem jobs_run_one_at_a_time_in_order cfg inputs :
  let b := run_bot cfg inputs in
  enqueued_jobs (log b) = dequeued_jobs (log b) ++ request_queue b /\
  (forall n job, Dequeued n job ∈ log b -> enqueued_jobs (log b) !! n = Some job) /\
  (forall later older n2 job2,
     log b = later ++ FetchStart n2 job2 :: older ->
     (exists u2, enqueued_jobs (log b) !! n2 = Some u2 /\ same_request u2 job2) /\
     forall n1, n1 < n2 ->
       exists between before,
         older = between ++ Finished n1 :: before /\ completed n1 before) /\
  (forall later older, log b = later ++ older -> (0 <= in_flight older <= 1)%Z).
Proof.
  intros b. pose proof (Inv_run_bot cfg inputs) as HI. fold b in HI.
  pose proof HI as (Hq & _ & _ & Hord & _).
  split; [done|]. split; [intros n job; by apply dequeued_is_enqueued|]. split.
  - intros later older n2 job2 Hlog.
    destruct (orderly_split _ _ _ _ Hord Hlog) as [[Hfin (u2 & Hin & Hsame)] _]. split.
    + exists u2. split; [|done]. apply dequeued_is_enqueued; [done|].
      rewrite Hlog. apply elem_of_app. right. by right.
    + intros n1 Hn. apply Hfin in Hn.
      apply list_elem_of_split in Hn as (between & before & ->).
      exists between, before. split; [done|].
      assert (Hlog' : log b = (later ++ FetchStart n2 job2 :: between)
                                ++ Finished n1 :: before)
        by (by rewrite Hlog, <- app_assoc).
      by destruct (orderly_split _ _ _ _ Hord Hlog') as [Hdone _].
  - intros later older Hlog. destruct older as [|e older]; [simpl; lia|].
    by destruct (orderly_split _ _ _ _ Hord Hlog) as [_ Hfl].
Qed.

Lemma jobs_run_one_at_a_time_in_order_witness :
  (0 <= in_flight (log (run_bot bot_cfg two_requests)) <= 1)%Z.
Proof.
  apply (proj2 (proj2 (proj2 (jobs_run_one_at_a_time_in_order bot_cfg two_requests))) []).
  reflexivity.
Defined.

(** C6.  Normalizing twice is normalizing once; two strings that differ
    only in line breaks and in the lengths of their runs of white space,
    at the ends too, have the same normal form; so have ["A\n  B"] and
    ["A B"]. *)
Theorem normalize_idempotent_and_whitespace_insensitive :
  (forall x, _normalize_address (_normalize_address x) = _normalize_address x) /\
  (forall x y, same_up_to_whitespace x y -> _normalize_address x = _normalize_address y) /\
  _normalize_address (py "A" ++ [LF] ++ py "  B") = _normalize_address (py "A B").
Proof.
  split; [apply normalize_idempotent|]. split; [apply normalize_whitespace_insensitive|].
  vm_compute. reflexivity.
Qed.

Lemma normalize_idempotent_and_whitespace_insensitive_witness :
  _normalize_address (py " 100  Oak Ave ") = _normalize_address (py "100 Oak Ave").
Proof.
  apply (proj1 (proj2 normalize_idempotent_and_whitespace_insensitive)).
  eapply rtc_l; [left; apply (ws_leading " "%char); reflexivity|].
  eapply rtc_l; [left; apply (ws_trailing (py "100  Oak Ave") " "%char); reflexivity|].
  eapply rtc_l; [left; apply (ws_run (py "100") " "%char " "%char (py "Oak Ave")); reflexivity|].
  apply rtc_refl.
Defined.

(** C7.  [_has_valid_address] is true exactly when some section whose
    label contains "address", in any mix of cases, has a value for which
    [_is_po_box_or_empty] is false.  It is true for a PO-Box mailing
    address beside a street principal address, false for the PO-Box
    mailing address alone. *)
Theorem has_valid_address_iff :
  (forall details : gmap str str,
     _has_valid_address details = true <->
     exists key value,
       details !! key = Some value /\ mentions_address key /\
       _is_po_box_or_empty value = false) /\
  _has_valid_address
    (<[py "Mailing Address" := py "PO Box 1"]>
       (<[py "Principal Address" := py "123 Main St"]> ∅)) = true /\
  _has_valid_address (<[py "Mailing Address" := py "PO Box 1"]> ∅) = false.
Proof.
  split; [apply has_valid_address_spec|]. split; vm_compute; reflexivity.
Qed.

(** C8.  [_is_po_box_or_empty] is true for [""], ["   "], ["P.O. Box 123"],
    ["PO BOX 45"] and ["Post Office Box 9"], false for ["123 Main St"]; it
    is true exactly for the texts that are empty or white space only, or
    in which one of the variants of "PO Box" stands as words of its own,
    its letters matched the way the pattern matches them, without regard
    to case. *)
Theorem is_po_box_or_empty_iff :
  _is_po_box_or_empty (py "") = true /\
  _is_po_box_or_empty (py "   ") = true /\
  _is_po_box_or_empty (py "P.O. Box 123") = true /\
  _is_po_box_or_empty (py "PO BOX 45") = true /\
  _is_po_box_or_empty (py "Post Office Box 9") = true /\
  _is_po_box_or_empty (py "123 Main St") = false /\
  (forall text,
     _is_po_box_or_empty text = true <->
     whitespace_only text \/ contains_match_as_words text).
Proof.
  repeat (split; [vm_compute; reflexivity|]). apply is_po_box_or_empty_match.
Qed.

(** C9, as stated, fails.  On a disk without any file the seen path that
    the worker makes for a keyword of 256 letters names no file, yet
    loading the seen store raises: [p.exists()] does not answer [False],
    it lets the error of [os.stat] through, and the run ends there. *)
Lemma absent_seen_file_can_raise :
  no_file empty_disk long_seen_path /\
  (forall path text, empty_disk path <> Some (TextFile text)) /\
  load_seen empty_disk (Some (AsStr long_seen_path)) = Raise (OSError long_seen_path) /\
  forall fuel web search_url search_term max_results on_progress,
    run fuel web empty_disk search_url search_term max_results on_progress
      (Some (AsStr long_seen_path))
    = Some (Raise (OSError long_seen_path)).
Proof.
  assert (Hload : load_seen empty_disk (Some (AsStr long_seen_path))
                  = Raise (OSError long_seen_path)) by (vm_compute; reflexivity).
  split; [right; vm_compute; reflexivity|]. split.
  - intros path text. unfold empty_disk. by destruct (existsb _ _).
  - split; [done|]. intros. unfold run. by rewrite Hload.
Qed.

(** C9 (amended).  When [seen_path] is given and [p.exists()] answers
    [False], loading the seen store does not raise and the run goes on
    with an empty seen set; when a text file is there, the seen set holds
    exactly the stripped lines of the file that are not empty.  Loading
    raises only when the path cannot be examined or what is there cannot
    be read, and then the run raises the same error. *)
Theorem seen_store_load fs seen_path :
  truthy_path (Some seen_path) = true ->
  (fs (Path seen_path) = None ->
   load_seen fs (Some seen_path) = Return ∅ /\
   forall fuel web search_url search_term max_results on_progress,
     run fuel web fs search_url search_term max_results on_progress (Some seen_path)
     = while_current_url fuel web max_results on_progress
         (Some (initial_url search_url search_term))
         {| results := []; seen := ∅; progress := [] |}) /\
  (forall text, fs (Path seen_path) = Some (TextFile text) ->
   exists seen0,
     load_seen fs (Some seen_path) = Return seen0 /\
     forall x, x ∈ seen0 <->
       exists line, line ∈ splitlines text /\ x = strip line /\ x <> []) /\
  (forall e, load_seen fs (Some seen_path) = Raise e <->
     e = OSError (Path seen_path) /\
     (fs (Path seen_path) = Some StatFails \/ fs (Path seen_path) = Some Unreadable)) /\
  (forall e, load_seen fs (Some seen_path) = Raise e ->
   forall fuel web search_url search_term max_results on_progress,
     run fuel web fs search_url search_term max_results on_progress (Some seen_path)
     = Some (Raise e)).
Proof.
  intros Hgiven. split; [|split; [|split]].
  - intros Habsent.
    assert (Hload : load_seen fs (Some seen_path) = Return ∅)
      by (unfold load_seen; by rewrite Hgiven, Habsent).
    split; [done|]. intros. unfold run. by rewrite Hload.
  - intros text Hfile. exists (seen_of_text text). split.
    + unfold load_seen. by rewrite Hgiven, Hfile.
    + apply seen_of_text_spec.
  - intros e. unfold load_seen. rewrite Hgiven.
    destruct (fs (Path seen_path)) as [[text| |]|]; split;
      try (by intros [= <-]; eauto); try done;
      try (by intros [-> _]);
      by intros [_ [?|?]].
  - intros e Hload. intros. unfold run. by rewrite Hload.
Qed.

Lemma seen_store_load_witness :
  load_seen no_files (Some (AsStr (py "seen.txt"))) = Return ∅.
Proof.
  refine (proj1 (proj1 (seen_store_load no_files (AsStr (py "seen.txt")) _) _)).
  - reflexivity.
  - reflexivity.
Defined.

Lemma has_valid_address_singleton key text :
  _is_po_box_or_empty text = true -> _has_valid_address {[key := text]} = false.
Proof.
  intros H. unfold _has_valid_address. rewrite map_to_list_singleton.
  rewrite has_valid_item_cons, H. simpl. by rewrite andb_false_r.
Qed.

(** C10, as stated, fails.  "PO Box9" contains the phrase "PO Box", yet
    it is not classified as a PO Box: the pattern asks for a word boundary
    after "box", and there is none between "x" and "9". *)
Lemma po_box_phrase_inside_a_word_is_missed :
  contains_phrase (py "PO Box9") /\ _is_po_box_or_empty (py "PO Box9") = false.
Proof.
  split; [|vm_compute; reflexivity].
  exists [], (py "PO Box"), (py "9"). split; [reflexivity|].
  apply (phrase_po_box (py "P") [] [] (py "O") [] (py " ") (py "Box"));
    try reflexivity; try constructor; try reflexivity; constructor.
Qed.

(** C10 (amended).  A text in which a PO-Box phrase occurs as words of
    its own, wherever in the text, is classified as a PO Box, and a
    mapping that holds this text alone has no valid address. *)
Theorem po_box_words_invalidate_address text :
  contains_phrase_as_words text ->
  _is_po_box_or_empty text = true /\
  forall key, _has_valid_address {[key := text]} = false.
Proof.
  intros H. assert (Hpo : _is_po_box_or_empty text = true)
    by (apply is_po_box_or_empty_spec; by right).
  split; [done|]. intros key. by apply has_valid_address_singleton.
Qed.

Lemma po_box_words_invalidate_address_witness :
  _is_po_box_or_empty (py "123 Main St, P.O. Box 9") = true /\
  forall key, _has_valid_address {[key := py "123 Main St, P.O. Box 9"]} = false.
Proof.
  apply (po_box_words_invalidate_address (py "123 Main St, P.O. Box 9")).
  exists (py "123 Main St, "), (py "P.O. Box"), (py " 9"). split; [reflexivity|].
  split; [|split; reflexivity].
  apply (phrase_po_box (py "P") (py ".") [] (py "O") (py ".") (py " ") (py "Box"));
    try reflexivity; try constructor; try reflexivity; constructor.
Defined.

(* ===================================================================== *)
(** ** The seen store between runs *)
(* ===================================================================== *)

Lemma splitlines_from_char after_cr cur c s :
  is_line_boundary c = false ->
  splitlines_from after_cr cur (c :: s) = splitlines_from false (cur ++ [c]) s.
Proof.
  intros H. simpl. destruct (after_cr && Ascii.eqb c LF) eqn:E.
  - apply andb_true_iff in E as [_ E]. apply Ascii.eqb_eq in E as ->. done.
  - by rewrite H.
Qed.

Lemma splitlines_from_line w : forall after_cr cur s,
  w <> [] ->
  Forall (fun c => is_line_boundary c = false) w ->
  splitlines_from after_cr cur (w ++ s) = splitlines_from false (cur ++ w) s.
Proof.
  induction w as [|c w IH]; intros after_cr cur s Hne Hw; [done|].
  apply Forall_cons in Hw as [Hc Hw]. simpl app.
  rewrite splitlines_from_char by done. destruct w as [|d w].
  - done.
  - rewrite IH by done. by rewrite <- app_assoc.
Qed.

Lemma splitlines_join lines :
  Forall (fun w => w <> [] /\ Forall (fun c => is_line_boundary c = false) w) lines ->
  splitlines (join [LF] lines) = lines.
Proof.
  induction lines as [|w lines IH]; intros H; [done|].
  apply Forall_cons in H as [[Hne Hw] Hall]. unfold splitlines.
  destruct lines as [|w' lines].
  - simpl. rewrite <- (app_nil_r w) at 1. rewrite splitlines_from_line by done.
    simpl. by destruct w.
  - change (join [LF] (w :: w' :: lines)) with (w ++ LF :: join [LF] (w' :: lines)).
    rewrite splitlines_from_line by done. simpl app.
    change (splitlines_from false w (LF :: join [LF] (w' :: lines)))
      with (w :: splitlines (join [LF] (w' :: lines))).
    by rewrite IH.
Qed.

Lemma storable_lines_roundtrip lines :
  Forall storable lines ->
  map strip (List.filter (fun line => truthy (strip line)) (splitlines (join [LF] lines)))
  = lines.
Proof.
  intros H. rewrite splitlines_join.
  - induction H as [|x lines (Hne & Hs & _) _ IH]; [done|]. simpl.
    rewrite Hs. destruct x; [done|]. simpl. by rewrite <- Hs at 2; rewrite IH.
  - eapply Forall_impl; [exact H|]. by intros x (? & _ & ?).
Qed.

Lemma seen_roundtrip (seen : gset str) :
  set_Forall storable seen -> seen_of_text (seen_file_text seen) = seen.
Proof.
  intros H. unfold seen_of_text, seen_file_text.
  rewrite storable_lines_roundtrip.
  - unfold sorted. rewrite merge_sort_Permutation. apply list_to_set_elements_L.
  - unfold sorted. rewrite merge_sort_Permutation. apply Forall_forall.
    intros x Hx%elem_of_elements. by apply H.
Qed.


Lemma line_boundary_is_space c : is_line_boundary c = true -> isspace c = true.
Proof. each_char c; vm_compute; congruence. Qed.

Lemma not_space_not_boundary c : isspace c = false -> is_line_boundary c = false.
Proof.
  intros H. destruct (is_line_boundary c) eqn:E; [|done].
  apply line_boundary_is_space in E. congruence.
Qed.

Lemma lstrip_Forall (P : ascii -> Prop) s : Forall P s -> Forall P (lstrip s).
Proof.
  induction 1 as [|c s Hc Hs IH]; simpl; [constructor|].
  destruct (isspace c); [done|by constructor].
Qed.

Lemma strip_Forall (P : ascii -> Prop) s : Forall P s -> Forall P (strip s).
Proof.
  intros H. unfold strip, rstrip. apply Forall_rev, lstrip_Forall, Forall_rev.
  by apply lstrip_Forall.
Qed.

Lemma lstrip_head s c : head (lstrip s) = Some c -> isspace c = false.
Proof.
  induction s as [|d s IH]; simpl; [done|].
  destruct (isspace d) eqn:Hd; [done|]. simpl. by intros [= <-].
Qed.

Lemma rstrip_last s c : last (rstrip s) = Some c -> isspace c = false.
Proof.
  unfold rstrip. destruct (lstrip (rev s)) as [|d t] eqn:E; [done|].
  simpl. rewrite last_snoc. intros [= <-]. apply (lstrip_head (rev s)). by rewrite E.
Qed.

Lemma rstrip_head s c :
  head s = Some c -> isspace c = false -> head (rstrip s) = Some c.
Proof.
  induction s as [|d s IH] using rev_ind; [done|]. intros Hh Hc.
  rewrite rstrip_snoc. destruct (isspace d) eqn:Hd; [|done].
  destruct s as [|e s]; [simpl in Hh; congruence|]. by apply IH.
Qed.

Lemma strip_idempotent s : strip (strip s) = strip s.
Proof.
  apply strip_fixed.
  - intros c Hc. unfold strip in Hc.
    destruct (lstrip s) as [|d t] eqn:E; [done|].
    assert (Hd : isspace d = false) by (apply (lstrip_head s); by rewrite E).
    rewrite (rstrip_head (d :: t) d) in Hc by done. congruence.
  - intros c. apply rstrip_last.
Qed.

Lemma splitlines_from_clean s : forall after_cr cur,
  Forall (fun c => is_line_boundary c = false) cur ->
  Forall (Forall (fun c => is_line_boundary c = false)) (splitlines_from after_cr cur s).
Proof.
  induction s as [|c s IH]; intros after_cr cur Hcur; simpl.
  - destruct cur; simpl; [constructor|]. constructor; [done|constructor].
  - destruct (after_cr && Ascii.eqb c LF); [by apply IH|].
    destruct (is_line_boundary c) eqn:Hc.
    + constructor; [done|]. apply IH. constructor.
    + apply IH. apply Forall_app. split; [done|]. constructor; [done|constructor].
Qed.

Lemma loaded_storable text : set_Forall storable (seen_of_text text).
Proof.
  intros x (line & Hin & -> & Hne)%seen_of_text_spec. split; [done|].
  split; [apply strip_idempotent|]. apply strip_Forall.
  pose proof (splitlines_from_clean text false [] (List.Forall_nil _)) as H.
  rewrite Forall_forall in H. by apply H.
Qed.

Lemma split_from_nil_iff s : forall cur,
  split_from cur s = [] <-> cur = [] /\ whitespace_only s.
Proof.
  unfold whitespace_only. induction s as [|c s IH]; intros cur.
  - rewrite split_from_nil. unfold flush. destruct cur; simpl.
    + split; [intros _; split; [done|constructor]|done].
    + split; [done|]. by intros [? _].
  - destruct (isspace c) eqn:Hc.
    + rewrite split_from_space by done. unfold flush, split.
      destruct cur; simpl.
      * rewrite IH, Forall_cons. tauto.
      * split; [done|]. by intros [? _].
    + rewrite split_from_char, IH by done. split.
      * intros [H _]. by destruct cur.
      * intros [_ [H _]%Forall_cons]. congruence.
Qed.

Lemma normalize_nil_iff s : _normalize_address s = [] <-> whitespace_only s.
Proof.
  rewrite normalize_eq. split.
  - intros H. pose proof (split_tokens s) as Ht.
    destruct (split s) as [|w ws] eqn:E.
    + by apply (split_from_nil_iff s []) in E as [_ ?].
    + apply Forall_cons in Ht as [[Hne _] _]. destruct w; [done|].
      destruct ws; simpl in H; discriminate.
  - intros H. assert (split s = []) as -> by (by apply split_from_nil_iff). done.
Qed.

Lemma join_clean ws :
  Forall is_token ws -> Forall (fun c => is_line_boundary c = false) (join (py " ") ws).
Proof.
  induction ws as [|w ws IH]; intros H; [constructor|].
  apply Forall_cons in H as [[_ Hw] Hws].
  assert (Hclean : Forall (fun c => is_line_boundary c = false) w).
  { eapply Forall_impl; [exact Hw|]. apply not_space_not_boundary. }
  destruct ws as [|w' ws]; [done|].
  change (join (py " ") (w :: w' :: ws)) with (w ++ " "%char :: join (py " ") (w' :: ws)).
  apply Forall_app. split; [done|]. constructor; [done|]. by apply IH.
Qed.

Lemma normalized_storable s : ~ whitespace_only s -> storable (_normalize_address s).
Proof.
  intros H. split; [by rewrite normalize_nil_iff|]. rewrite normalize_eq. split.
  - apply strip_join, split_tokens.
  - apply join_clean, split_tokens.
Qed.

Lemma has_principal_storable r : has_principal r -> storable (normalized_principal r).
Proof.
  intros [_ Hne]. apply normalized_storable. by rewrite <- strip_nil_iff.
Qed.

Lemma extends_storable st st' new :
  extends st st' new -> set_Forall storable (seen st) -> set_Forall storable (seen st').
Proof.
  intros (_ & -> & _ & Hall) Hst x [Hx|Hx]%elem_of_union; [|by apply Hst].
  unfold keys in Hx. apply elem_of_list_to_set, list_elem_of_fmap in Hx as (r & -> & Hr).
  rewrite Forall_forall in Hall. by apply has_principal_storable, Hall.
Qed.

Lemma load_seen_storable fs seen_path seen0 :
  load_seen fs seen_path = Return seen0 -> set_Forall storable seen0.
Proof.
  unfold load_seen. destruct (truthy_path seen_path); [|by intros [= <-] x ?%not_elem_of_empty].
  destruct seen_path as [p|]; [|by intros [= <-] x ?%not_elem_of_empty].
  destruct (fs (Path p)) as [[text| |]|];
    [| done | done |by intros [= <-] x ?%not_elem_of_empty].
  intros [= <-]. apply loaded_storable.
Qed.

Lemma run_returns fuel web fs search_url search_term max_results on_progress seen_path st :
  run fuel web fs search_url search_term max_results on_progress seen_path = Some (Return st) ->
  exists seen0,
    load_seen fs seen_path = Return seen0 /\
    extends {| results := []; seen := seen0; progress := [] |} st (results st).
Proof.
  unfold run. destruct (load_seen fs seen_path) as [seen0|e] eqn:Hload; [|done].
  intros (new & Hnew)%while_extends. exists seen0. split; [done|].
  pose proof Hnew as (R & _). simpl in R. by rewrite R.
Qed.

Lemma run_seen_storable fuel web fs search_url search_term max_results on_progress seen_path st :
  run fuel web fs search_url search_term max_results on_progress seen_path = Some (Return st) ->
  set_Forall storable (seen st).
Proof.
  intros (seen0 & Hload & Hext)%run_returns.
  eapply extends_storable; [exact Hext|]. simpl. by eapply load_seen_storable.
Qed.


Lemma extends_seen_mono st st' new : extends st st' new -> seen st ⊆ seen st'.
Proof. intros (_ & -> & _). set_solver. Qed.

Lemma skipped_mono sections st st2 :
  skipped sections st = true -> seen st ⊆ seen st2 -> skipped sections st2 = true.
Proof.
  unfold skipped. cbv zeta. intros H Hsub.
  apply orb_true_iff in H as [H|H]; [by rewrite H|].
  apply bool_decide_eq_true in H. rewrite orb_true_iff. right.
  apply bool_decide_eq_true. set_solver.
Qed.

Lemma accepted_then_skipped on_progress row url sections st st2 :
  seen (accept on_progress row url sections
          (_normalize_address (strip (default [] (sections !! py "Principal Address")))) st)
    ⊆ seen st2 ->
  skipped sections st2 = true.
Proof.
  unfold skipped, accept. cbv zeta. simpl. intros Hsub.
  rewrite orb_true_iff. right. apply bool_decide_eq_true. set_solver.
Qed.

Lemma for_rows_rerun web on_progress on_progress' max_results' rows : forall st st' st2,
  for_rows web None on_progress rows st = Return st' ->
  seen st' ⊆ seen st2 ->
  for_rows web max_results' on_progress' rows st2 = Return st2.
Proof.
  induction rows as [|row rows IH]; intros st st' st2 Hrun Hsub; [done|].
  rewrite for_rows_cons in Hrun. rewrite for_rows_cons. simpl in Hrun.
  destruct (cap_reached max_results' st2); [done|].
  destruct (goto web (absolute (detail_path row))) as [page|e]; [|done].
  cbv zeta in *. destruct (skipped _ st) eqn:Hskip.
  - pose proof Hrun as (new & Hnew%extends_seen_mono)%for_rows_extends.
    rewrite (skipped_mono _ st st2) by (done || set_solver). by eapply IH.
  - pose proof Hrun as (new & Hnew%extends_seen_mono)%for_rows_extends.
    rewrite (accepted_then_skipped on_progress row (absolute (detail_path row)) _ st st2)
      by set_solver.
    by eapply IH.
Qed.

Lemma while_rerun fuel web on_progress on_progress' max_results' : forall url st st' st2,
  while_current_url fuel web None on_progress url st = Some (Return st') ->
  seen st' ⊆ seen st2 ->
  while_current_url fuel web max_results' on_progress' url st2 = Some (Return st2).
Proof.
  induction fuel as [|fuel IH]; intros url st st' st2 Hrun Hsub;
    destruct (truthy_cases url) as [(u & -> & Hu)|Hdone];
    try (by rewrite while_done).
  - simpl in Hrun. by rewrite Hu in Hrun.
  - rewrite while_step in Hrun by done. rewrite while_step by done.
    destruct (goto web u) as [page|e]; [|done].
    destruct (for_rows web None _ _ st) as [st1|e] eqn:Hrows; [|done].
    simpl in Hrun.
    pose proof Hrun as (new & Hnew%extends_seen_mono)%while_extends.
    rewrite (for_rows_rerun web on_progress on_progress' max_results' _ st st1 st2 Hrows)
      by set_solver.
    destruct (cap_reached max_results' st2); [done|]. by eapply IH.
Qed.

Lemma load_after_save fs fs' seen_path seen0 seen1 :
  truthy_path seen_path = true ->
  load_seen fs seen_path = Return seen0 ->
  seen0 ⊆ seen1 -> set_Forall storable seen1 ->
  save_seen fs seen_path seen1 = Return fs' ->
  load_seen fs' seen_path = Return seen1.
Proof.
  intros Hpath Hload Hsub Hst. unfold save_seen, load_seen in *.
  destruct seen_path as [p|]; [|done]. rewrite Hpath in *. simpl.
  case_bool_decide as Hempty; simpl.
  - intros [= <-]. rewrite Hload. f_equal. set_solver.
  - destruct (fs (Path p)) as [[text| |]|] eqn:Hfs; [|done|done|];
      intros [= <-]; rewrite bool_decide_eq_true_2 by done;
      by rewrite seen_roundtrip.
Qed.

(* ===================================================================== *)
(** ** Progress, provenance and the text file *)
(* ===================================================================== *)

Lemma expected_progress_app on_progress from n m :
  expected_progress on_progress from n ++ expected_progress on_progress (from + n) m
  = expected_progress on_progress from (n + m).
Proof.
  unfold expected_progress. destruct on_progress; [|done].
  rewrite List.seq_app. do 2 f_equal.
Qed.

Lemma counted_refl on_progress st : counted on_progress st st.
Proof.
  exists 0. split; [lia|]. unfold expected_progress. destruct on_progress; simpl;
    by rewrite app_nil_r.
Qed.

Lemma counted_trans on_progress st1 st2 st3 :
  counted on_progress st1 st2 -> counted on_progress st2 st3 -> counted on_progress st1 st3.
Proof.
  intros (k1 & L1 & P1) (k2 & L2 & P2). exists (k1 + k2). split; [lia|].
  rewrite P2, P1, L1, <- app_assoc. by rewrite expected_progress_app.
Qed.

Lemma counted_accept on_progress row url sections normalized st :
  counted on_progress st (accept on_progress row url sections normalized st).
Proof.
  exists 1. unfold accept. simpl. rewrite length_app. simpl. split; [lia|].
  unfold expected_progress. destruct on_progress; simpl; [|by rewrite app_nil_r].
  do 2 f_equal. lia.
Qed.

Lemma for_rows_counted web max_results on_progress rows : forall st st',
  for_rows web max_results on_progress rows st = Return st' -> counted on_progress st st'.
Proof.
  induction rows as [|row rows IH]; intros st st'.
  - intros [= <-]. apply counted_refl.
  - rewrite for_rows_cons. destruct (cap_reached max_results st).
    { intros [= <-]. apply counted_refl. }
    destruct (goto web (absolute (detail_path row))) as [page|e]; [|done].
    cbv zeta. destruct (skipped _ st); [apply IH|].
    intros H%IH. eapply counted_trans; [apply counted_accept|exact H].
Qed.

Lemma while_counted fuel web max_results on_progress : forall url st st',
  while_current_url fuel web max_results on_progress url st = Some (Return st') ->
  counted on_progress st st'.
Proof.
  induction fuel as [|fuel IH]; intros url st st';
    destruct (truthy_cases url) as [(u & -> & Hu)|Hdone];
    try (rewrite while_done by done; intros [= <-]; apply counted_refl).
  - simpl. by rewrite Hu.
  - rewrite while_step by done.
    destruct (goto web u) as [page|e]; [|done].
    destruct (for_rows _ _ _ _ st) as [st1|e] eqn:Hrows; [|done].
    apply for_rows_counted in Hrows.
    destruct (cap_reached max_results st1).
    { by intros [= <-]. }
    intros H%IH. by eapply counted_trans.
Qed.

Lemma goto_inv web url page : goto web url = Return page -> web url = Some page.
Proof. unfold goto. destruct (web url); [by intros [= ->]|done]. Qed.

Lemma for_rows_from_site web max_results on_progress listing_url listing_page rows :
  web listing_url = Some listing_page ->
  forall st st',
  rows ⊆ _extract_search_results listing_page ->
  Forall (from_site web) (results st) ->
  for_rows web max_results on_progress rows st = Return st' ->
  Forall (from_site web) (results st').
Proof.
  intros Hlist. induction rows as [|row rows IH]; intros st st' Hsub Hall.
  - by intros [= <-].
  - rewrite for_rows_cons. destruct (cap_reached max_results st).
    { by intros [= <-]. }
    destruct (goto web (absolute (detail_path row))) as [page|e] eqn:Hgo; [|done].
    apply goto_inv in Hgo.
    cbv zeta. destruct (skipped _ st); [apply IH; [set_solver|done]|].
    apply IH; [set_solver|]. unfold accept. simpl.
    apply Forall_app. split; [done|]. constructor; [|constructor].
    exists listing_url, listing_page, row, page. simpl.
    split; [done|]. split; [set_solver|]. done.
Qed.

Lemma while_from_site fuel web max_results on_progress : forall url st st',
  Forall (from_site web) (results st) ->
  while_current_url fuel web max_results on_progress url st = Some (Return st') ->
  Forall (from_site web) (results st').
Proof.
  induction fuel as [|fuel IH]; intros url st st' Hall;
    destruct (truthy_cases url) as [(u & -> & Hu)|Hdone];
    try (rewrite while_done by done; by intros [= <-]).
  - simpl. by rewrite Hu.
  - rewrite while_step by done.
    destruct (goto web u) as [page|e] eqn:Hgo; [|done]. apply goto_inv in Hgo.
    destruct (for_rows _ _ _ _ st) as [st1|e] eqn:Hrows; [|done].
    eapply for_rows_from_site in Hrows; [|exact Hgo|done|done].
    destruct (cap_reached max_results st1).
    { by intros [= <-]. }
    by apply IH.
Qed.

Lemma replace_no_LF s : LF ∉ replace LF (py " ") s.
Proof.
  induction s as [|c s IH]; [by intros ?%elem_of_nil|].
  rewrite replace_cons. destruct (Ascii.eqb c LF) eqn:E.
  - intros [H|H]%elem_of_app; [|done].
    apply elem_of_cons in H as [H|H%elem_of_nil]; [discriminate|done].
  - intros [H|H]%elem_of_app; [|done].
    apply elem_of_cons in H as [H|H%elem_of_nil]; [|done].
    subst c. by rewrite Ascii.eqb_refl in E.
Qed.

Lemma count_LF_none s : LF ∉ s -> count_occ ascii_dec s LF = 0.
Proof. intros H. apply count_occ_not_In. by rewrite <- list_elem_of_In. Qed.

Lemma txt_file_text_cons r rs :
  txt_file_text (r :: rs) =
  (if truthy (strip (principal_address r))
   then replace LF (py " ") (strip (principal_address r)) ++ [LF] else [])
  ++ txt_file_text rs.
Proof. done. Qed.

Lemma txt_file_lines rs :
  Forall has_principal rs ->
  count_occ ascii_dec (txt_file_text rs) LF = List.length rs.
Proof.
  induction 1 as [|r rs [_ Hr] _ IH]; [done|].
  rewrite txt_file_text_cons.
  destruct (strip (principal_address r)) as [|c addr] eqn:E; [done|].
  cbn [truthy is_empty negb]. rewrite !count_occ_app, IH.
  rewrite count_LF_none by apply replace_no_LF. simpl.
  destruct (ascii_dec LF LF); [lia|done].
Qed.

(* ===================================================================== *)
(** ** The page extractors and the search URL *)
(* ===================================================================== *)

Lemma extract_sections_step sections spans divs :
  extract_sections_into sections (spans :: divs) =
  extract_sections_into
    (match section_entry spans with
     | Some (label, value) => <[label := value]> sections
     | None => sections
     end) divs.
Proof.
  unfold section_entry. destruct spans as [|s0 [|s1 spans]]; try done.
  simpl. by destruct (truthy (strip s0)).
Qed.

Lemma extract_sections_app divs1 : forall sections divs2,
  extract_sections_into sections (divs1 ++ divs2) =
  extract_sections_into (extract_sections_into sections divs1) divs2.
Proof.
  induction divs1 as [|spans divs1 IH]; intros sections divs2; [done|].
  simpl app. by rewrite !extract_sections_step, IH.
Qed.

Lemma extract_sections_clean divs : forall sections,
  clean_sections sections -> clean_sections (extract_sections_into sections divs).
Proof.
  induction divs as [|spans divs IH]; intros sections Hclean; [done|].
  rewrite extract_sections_step. apply IH.
  destruct (section_entry spans) as [[l v]|] eqn:E; [|done].
  unfold section_entry in E. destruct spans as [|s0 [|s1 spans]]; try done.
  destruct (truthy (strip s0)) eqn:Ht; [|done]. injection E as <- <-.
  intros label value. rewrite lookup_insert. case_decide as Hl.
  - intros [= <-]. subst label. split; [by destruct (strip s0)|].
    split; apply strip_idempotent.
  - apply Hclean.
Qed.

Lemma extract_sections_last divs spans label value :
  section_entry spans = Some (label, value) ->
  extract_sections_into ∅ (divs ++ [spans]) !! label = Some value.
Proof.
  intros H. rewrite extract_sections_app, extract_sections_step, H.
  simpl. apply lookup_insert_eq.
Qed.

Lemma extract_sections_skip divs spans :
  section_entry spans = None ->
  extract_sections_into ∅ (divs ++ [spans]) = extract_sections_into ∅ divs.
Proof.
  intros H. by rewrite extract_sections_app, extract_sections_step, H.
Qed.

Lemma extract_rows_omap trs : extract_rows trs = omap row_of trs.
Proof.
  induction trs as [|cells trs IH]; [done|].
  destruct cells as [|c0 [|c1 [|c2 cells]]]; try done.
  cbn [extract_rows omap list_omap row_of]. destruct (td_links c0); cbn; by rewrite IH.
Qed.

Lemma extract_rows_app trs1 trs2 :
  extract_rows (trs1 ++ trs2) = extract_rows trs1 ++ extract_rows trs2.
Proof. rewrite !extract_rows_omap. apply omap_app. Qed.

Lemma row_of_stripped cells row : row_of cells = Some row -> stripped_row row.
Proof.
  unfold row_of. destruct cells as [|c0 [|c1 [|c2 cells]]]; try done.
  destruct (td_links c0); [done|]. intros [= <-].
  repeat split; apply strip_idempotent.
Qed.

Lemma row_of_None cells :
  row_of cells = None <->
  List.length cells < 3 \/ exists c0 rest, cells = c0 :: rest /\ td_links c0 = [].
Proof.
  unfold row_of. destruct cells as [|c0 [|c1 [|c2 cells]]]; simpl.
  - split; [intros _; left; lia|done].
  - split; [intros _; left; lia|done].
  - split; [intros _; left; lia|done].
  - destruct (td_links c0) eqn:E.
    + split; [|done]. intros _. right. by exists c0, (c1 :: c2 :: cells).
    + split; [done|]. intros [H|(c & rest & [= <- _] & H)]; [lia|congruence].
Qed.

Lemma absolute_truthy href : truthy href = true -> truthy (absolute href) = true.
Proof.
  unfold absolute. destruct (startswith (py "/") href); [|done]. intros _. done.
Qed.

Lemma next_list_url_truthy page url :
  _get_next_list_url page = Some url -> truthy url = true.
Proof.
  unfold _get_next_list_url. destruct (next_list_links page) as [|link links]; [done|].
  destruct (a_href link) as [href|]; [|done].
  destruct (truthy href) eqn:E; [|done]. intros [= <-]. by apply absolute_truthy.
Qed.

Lemma next_list_url_resolved page url :
  _get_next_list_url page = Some url ->
  exists link links href,
    next_list_links page = link :: links /\ a_href link = Some href /\ href <> [] /\
    url = if startswith (py "/") href then BASE_URL ++ href else href.
Proof.
  unfold _get_next_list_url.
  destruct (next_list_links page) as [|link links] eqn:Hlinks; [done|].
  destruct (a_href link) as [href|] eqn:Hhref; [|done].
  destruct (truthy href) eqn:E; [|done]. intros [= <-].
  exists link, links, href. split; [done|]. split; [done|]. split; [by destruct href|done].
Qed.




Lemma quote_of_safe s : Forall (fun c => always_safe c = true) s -> quote s = s.
Proof.
  induction 1 as [|c s Hc _ IH]; [done|]. unfold quote in *. simpl.
  by rewrite Hc, IH.
Qed.

Lemma has_valid_address_mono (d d' : gmap str str) :
  d ⊆ d' -> _has_valid_address d = true -> _has_valid_address d' = true.
Proof.
  intros Hsub (key & value & Hk & ?)%has_valid_address_spec.
  apply has_valid_address_spec. exists key, value. split; [|done].
  by eapply lookup_weaken.
Qed.

Lemma has_valid_address_irrelevant (key value : str) (d : gmap str str) :
  d !! key = None ->
  ~ mentions_address key \/ _is_po_box_or_empty value = true ->
  _has_valid_address (<[key := value]> d) = _has_valid_address d.
Proof.
  intros Hfresh Hirr. apply eq_true_iff_eq. rewrite !has_valid_address_spec. split.
  - intros (k & v & Hk & Hm & Hv). rewrite lookup_insert in Hk. case_decide as E.
    + injection Hk as <-. subst k. destruct Hirr; [done|congruence].
    + eauto.
  - intros (k & v & Hk & Hm & Hv). exists k, v. split; [|done].
    rewrite lookup_insert_ne; [done|]. intros <-. congruence.
Qed.

(* ===================================================================== *)
(** ** More about the worker *)
(* ===================================================================== *)

Lemma Counts_initial cfg : Counts cfg initial.
Proof.
  split; [constructor|]. split; [done|]. split; [done|].
  by intros n job H%elem_of_nil.
Qed.

Lemma Counts_handle_message cfg chat kw n b :
  (1 <= max_addresses cfg)%Z -> Counts cfg b -> Counts cfg (handle_message cfg chat kw n b).
Proof.
  intros Hmax (Hq & Hsize & Hpc & Hlog). unfold Counts. simpl.
  split; [|split; [|split]].
  - apply Forall_app. split; [done|]. constructor; [|constructor].
    unfold bounded. simpl. lia.
  - rewrite length_app. simpl. lia.
  - intros m job H. destruct (Hpc m job H). split; [done|]. by right.
  - intros m job [[=]|H]%elem_of_cons. destruct (Hlog m job H). split; [done|]. by right.
Qed.

Lemma Counts_goes cfg b pc' es :
  Counts cfg b ->
  (forall n job, current_job pc' = Some (n, job) -> current_job (pc b) = Some (n, job)) ->
  (forall n job, FetchStart n job ∈ es -> current_job (pc b) = Some (n, job)) ->
  Counts cfg (goes b pc' es).
Proof.
  intros (Hq & Hsize & Hpc & Hlog) Hpc' Hes. unfold Counts. simpl.
  split; [done|]. split; [done|]. split.
  - intros n job H%Hpc'%Hpc. destruct H. split; [done|]. apply elem_of_app. by right.
  - intros n job [H%Hes%Hpc|H%Hlog]%elem_of_app.
    + destruct H. split; [done|]. apply elem_of_app. by right.
    + destruct H. split; [done|]. apply elem_of_app. by right.
Qed.

Ltac counts_goes Epc :=
  apply Counts_goes; [assumption
                     |rewrite Epc; simpl; congruence
                     |rewrite Epc; simpl; intros ? ? Hin;
                      repeat (apply elem_of_cons in Hin as [Hin|Hin]; [try discriminate|]);
                      try (by apply elem_of_nil in Hin); congruence].

Lemma Counts_queue_worker cfg b a : Counts cfg b -> Counts cfg (queue_worker cfg b a).
Proof.
  intros HC. pose proof HC as (Hq & Hsize & Hpc & Hlog). unfold queue_worker.
  destruct (pc b) as [|n job|n job|n job|n job path|n job|] eqn:Epc; [| | | | | |done].
  - assert (Hstop : Counts cfg (goes b Stopped [])) by counts_goes Epc.
    destruct (request_queue b) as [|job queue] eqn:Eq.
    { destruct a; solve [done | exact Hstop]. }
    apply Forall_cons in Hq as [Hjob Hq].
    assert (Hsame : {| chat_id := chat_id job; keyword := keyword job;
                       count := Z.min (count job) (max_addresses cfg) |} = job).
    { destruct job as [c k m]. unfold bounded in Hjob. simpl in *. f_equal. lia. }
    assert (Hget : Counts cfg
      {| request_queue := queue; queue_size := Z.max 0 (queue_size b - 1);
         pc := AtProcessingNotice (served b)
                 {| chat_id := chat_id job; keyword := keyword job;
                    count := Z.min (count job) (max_addresses cfg) |};
         served := S (served b);
         log := SendMessage (chat_id job)
                  (Processing (keyword job) (Z.min (count job) (max_addresses cfg)))
                :: Dequeued (served b) job :: log b |}).
    { unfold Counts. simpl. split; [done|]. split; [simpl in Hsize; lia|]. split.
      - intros m j [= <- <-]. rewrite Hsame. split; [done|]. right. by left.
      - intros m j [[=]|[[=]|H]%elem_of_cons]%elem_of_cons.
        destruct (Hlog m j H). split; [done|]. right. by right. }
    destruct a; solve [exact Hget | exact Hstop].
  - destruct a; unfold handler; counts_goes Epc.
  - destruct a as [|e|world|]; [done|done| |counts_goes Epc].
    destruct (run_fetch_sync _ _ _ _ _) as [[txt|]|e];
      [destruct (file_exists world txt)| |]; counts_goes Epc.
  - destruct a; unfold handler; counts_goes Epc.
  - destruct a; unfold handler; counts_goes Epc.
  - destruct a; counts_goes Epc.
Qed.

Lemma Counts_run_from cfg inputs : forall b,
  (1 <= max_addresses cfg)%Z -> Counts cfg b -> Counts cfg (fold_left (step cfg) inputs b).
Proof.
  induction inputs as [|i inputs IH]; intros b Hmax Hb; [done|]. simpl. apply IH; [done|].
  destruct i; [by apply Counts_handle_message|by apply Counts_queue_worker].
Qed.

Lemma size_handle_message cfg chat kw n b :
  queue_size b = Z.of_nat (List.length (request_queue b)) ->
  queue_size (handle_message cfg chat kw n b)
  = Z.of_nat (List.length (request_queue (handle_message cfg chat kw n b))).
Proof. simpl. rewrite length_app. simpl. lia. Qed.

Lemma size_queue_worker cfg b a :
  queue_size b = Z.of_nat (List.length (request_queue b)) ->
  queue_size (queue_worker cfg b a)
  = Z.of_nat (List.length (request_queue (queue_worker cfg b a))).
Proof.
  intros H. unfold queue_worker, handler.
  destruct (pc b) as [|n job|n job|n job|n job path|n job|]; [| | | | | |done].
  - destruct (request_queue b) as [|job queue] eqn:Eq;
      destruct a; simpl in *; rewrite ?Eq; simpl; lia.
  - by destruct a.
  - destruct a as [|e|world|]; try done.
    destruct (run_fetch_sync _ _ _ _ _) as [[txt|]|e];
      [destruct (file_exists world txt)| |]; done.
  - by destruct a.
  - by destruct a.
  - by destruct a.
Qed.

Lemma size_run_from cfg inputs : forall b,
  queue_size b = Z.of_nat (List.length (request_queue b)) ->
  queue_size (fold_left (step cfg) inputs b)
  = Z.of_nat (List.length (request_queue (fold_left (step cfg) inputs b))).
Proof.
  induction inputs as [|i inputs IH]; intros b Hb; [done|]. simpl. apply IH.
  destruct i; [by apply size_handle_message|by apply size_queue_worker].
Qed.

Lemma stopped_stays cfg inputs : forall b,
  pc b = Stopped ->
  let b' := fold_left (step cfg) inputs b in
  pc b' = Stopped /\ served b' = served b /\
  exists jobs, log b' = map Enqueued jobs ++ log b /\
               request_queue b' = request_queue b ++ rev jobs.
Proof.
  induction inputs as [|i inputs IH]; intros b Hpc; simpl.
  - split; [done|]. split; [done|]. exists []. by rewrite app_nil_r.
  - destruct i as [chat kw n|a]; simpl.
    + destruct (IH (handle_message cfg chat kw n b) Hpc) as (Hp & Hs & jobs & Hl & Hq).
      split; [done|]. split; [done|]. simpl in *. eexists (jobs ++ [_]).
      rewrite Hl, Hq, map_app, rev_app_distr, <- !app_assoc. done.
    + unfold queue_worker. rewrite Hpc. by apply IH.
Qed.

Lemma cancelled_stops cfg b : pc (queue_worker cfg b Cancelled) = Stopped /\
  log (queue_worker cfg b Cancelled) = log b /\
  request_queue (queue_worker cfg b Cancelled) = request_queue b.
Proof. unfold queue_worker. destruct (pc b) eqn:E; simpl; rewrite ?E; done. Qed.

(** [data_dir / name] as [pathlib] joins: a plain name lands in the
    directory, a name that begins with a slash replaces the directory,
    and empty components and dots disappear. *)
Lemma in_dir_examples :
  in_dir (py "data/bot") (py "water3.txt") = py "data/bot/water3.txt" /\
  in_dir (py "data/bot") (py "/x1.txt") = py "/x1.txt" /\
  in_dir (py "data/bot") (py "//x") = py "//x" /\
  in_dir (py "data/bot") (py "///x") = py "/x" /\
  in_dir (py "data/bot") (py "../x_seen.txt") = py "data/bot/../x_seen.txt" /\
  in_dir (py "/srv//bot/") (py "./a/../b") = py "/srv/bot/a/../b".
Proof. repeat split; vm_compute; reflexivity. Qed.

Lemma run_fetch_sync_spec world term count dir seen_path :
  mkdir_error world = None ->
  exists r, run_fetch_sync world term count dir seen_path = Return r /\
    forall path, r = Some path <->
      exists results,
        fetch world term count (AsStr seen_path) = Return results /\ results <> [] /\
        path = in_dir dir (term_clean term ++ str_of_nat (List.length results) ++ py ".txt") /\
        file_exists world path = true.
Proof.
  intros Hmk. unfold run_fetch_sync. rewrite Hmk.
  destruct (fetch world term count (AsStr seen_path)) as [[|r rs]|e].
  - eexists. split; [done|]. intros path. split; [done|].
    intros (results' & Heq & Hne & _). by injection Heq as <-.
  - destruct (file_exists world _) eqn:Hex.
    + eexists. split; [done|]. intros path. split.
      * intros [= <-]. by exists (r :: rs).
      * intros (results' & Heq & _ & -> & _). by injection Heq as <-.
    + eexists. split; [done|]. intros path. split; [done|].
      intros (results' & Heq & _ & -> & Hex'). injection Heq as <-. congruence.
  - eexists. split; [done|]. intros path. split; [done|]. by intros (? & ? & _).
Qed.

(* ===================================================================== *)
(** ** Classification ignores the case of the letters A-Z *)
(* ===================================================================== *)

Lemma lower_small_letter c : lower_char (small_letter c) = lower_char c.
Proof. each_char c; reflexivity. Qed.

Lemma isspace_small_letter c : isspace (small_letter c) = isspace c.
Proof. each_char c; reflexivity. Qed.

Lemma is_word_small_letter c : is_word (small_letter c) = is_word c.
Proof. each_char c; reflexivity. Qed.

Lemma accepts_small_letter a c : accepts true a (small_letter c) = accepts true a c.
Proof. destruct a; simpl; [by rewrite lower_small_letter|apply isspace_small_letter]. Qed.

Lemma word_at_small_letter p : word_at (small_letter <$> p) = word_at p.
Proof. destruct p; simpl; [apply is_word_small_letter|done]. Qed.

Lemma at_boundary_small_letters prev s :
  at_boundary (small_letter <$> prev) (small_letters s) = at_boundary prev s.
Proof.
  unfold at_boundary. rewrite word_at_small_letter. f_equal.
  destruct s; simpl; [done|apply is_word_small_letter].
Qed.

Lemma star_then_small_letters a k' k : lowered k' k ->
  forall s prev,
  star_then true a (small_letter <$> prev) (small_letters s) k' = star_then true a prev s k.
Proof.
  intros Hk. induction s as [|c s IH]; intros prev; simpl.
  - apply (Hk prev []).
  - rewrite accepts_small_letter, <- (IH (Some c)), <- (Hk prev (c :: s)). done.
Qed.

Lemma match_then_small_letters r : forall k' k, lowered k' k ->
  forall s prev,
  match_then true r (small_letter <$> prev) (small_letters s) k' = match_then true r prev s k.
Proof.
  induction r as [a|a|a| |r1 IH1 r2 IH2|r1 IH1 r2 IH2]; intros k' k Hk s prev; simpl.
  - destruct s as [|c s]; simpl; [done|]. rewrite accepts_small_letter. f_equal.
    apply (Hk (Some c)).
  - destruct s as [|c s]; simpl; [apply (Hk prev [])|].
    rewrite accepts_small_letter.
    f_equal; [f_equal; apply (Hk (Some c))|apply (Hk prev (c :: s))].
  - by apply star_then_small_letters.
  - rewrite at_boundary_small_letters. f_equal. apply Hk.
  - apply IH1. intros p s'. by apply IH2.
  - f_equal; [by apply IH1|by apply IH2].
Qed.

Lemma search_from_small_letters r : forall s prev,
  search_from true r (small_letter <$> prev) (small_letters s) = search_from true r prev s.
Proof.
  induction s as [|c s IH]; intros prev; simpl; unfold match_here.
  - f_equal. by apply (match_then_small_letters r _ _) with (s := []).
  - f_equal; [by apply (match_then_small_letters r _ _) with (s := c :: s)|apply (IH (Some c))].
Qed.

Lemma lstrip_small_letters s : lstrip (small_letters s) = small_letters (lstrip s).
Proof.
  induction s as [|c s IH]; [done|]. simpl. rewrite isspace_small_letter.
  by destruct (isspace c).
Qed.

Lemma rev_small_letters s : rev (small_letters s) = small_letters (rev s).
Proof. unfold small_letters. symmetry. apply map_rev. Qed.

Lemma strip_small_letters s : strip (small_letters s) = small_letters (strip s).
Proof.
  unfold strip, rstrip.
  by rewrite lstrip_small_letters, rev_small_letters, lstrip_small_letters, rev_small_letters.
Qed.

Lemma is_po_box_or_empty_small_letters text :
  _is_po_box_or_empty (small_letters text) = _is_po_box_or_empty text.
Proof.
  unfold _is_po_box_or_empty. rewrite strip_small_letters.
  assert (Ht : forall s, truthy (small_letters s) = truthy s) by (by intros []).
  rewrite !Ht. destruct (negb (truthy text) || negb (truthy (strip text))); [done|].
  unfold search. apply (search_from_small_letters _ text None).
Qed.

(* ===================================================================== *)
(** ** Further properties of the code *)
(* ===================================================================== *)

(** X1.  The seen store a run writes is read back unchanged: whatever
    seen set a run ends with, loading the text written for it (sorted, one
    address per line) gives the same set. *)
Theorem seen_store_round_trip
    fuel web fs search_url search_term max_results on_progress seen_path st :
  run fuel web fs search_url search_term max_results on_progress seen_path
    = Some (Return st) ->
  seen_of_text (seen_file_text (seen st)) = seen st.
Proof. intros H. by eapply seen_roundtrip, run_seen_storable. Qed.

Lemma seen_store_round_trip_witness :
  seen_of_text (seen_file_text (seen oak_state)) = seen oak_state.
Proof.
  apply (seen_store_round_trip 1 oak_site no_files (Some start_url) None None true None).
  vm_compute; reflexivity.
Defined.

(** X2.  Running again finds nothing new: after the loop of a run without
    a cap has ended and its seen store was saved, the loop of a second run
    over the same site with the same seen path ends with no record
    accepted, the seen set as it was loaded and no progress reported,
    whatever its cap. *)
Theorem rerun_finds_nothing_new
    fuel web fs fs' search_url search_term on_progress seen_path st
    max_results' on_progress' :
  truthy_path seen_path = true ->
  run fuel web fs search_url search_term None on_progress seen_path = Some (Return st) ->
  save_seen fs seen_path (seen st) = Return fs' ->
  run fuel web fs' search_url search_term max_results' on_progress' seen_path
    = Some (Return {| results := []; seen := seen st; progress := [] |}).
Proof.
  intros Hpath Hrun Hsave.
  pose proof (run_seen_storable _ _ _ _ _ _ _ _ _ Hrun) as Hst.
  pose proof Hrun as (seen0 & Hload & Hext%extends_seen_mono)%run_returns.
  assert (Hload' : load_seen fs' seen_path = Return (seen st))
    by (by eapply load_after_save).
  unfold run in *. rewrite Hload in Hrun. rewrite Hload'.
  by rewrite (while_rerun fuel web on_progress on_progress' max_results' _ _ st
                {| results := []; seen := seen st; progress := [] |} Hrun).
Qed.

Lemma rerun_finds_nothing_new_witness :
  run 1 oak_site (one_file "100 Oak Ave") (Some start_url) None (Some 5%Z) false seen_txt
    = Some (Return {| results := []; seen := seen oak_state; progress := [] |}).
Proof.
  apply (rerun_finds_nothing_new 1 oak_site no_files (one_file "100 Oak Ave")
           (Some start_url) None true seen_txt oak_state (Some 5%Z) false).
  - reflexivity.
  - vm_compute; reflexivity.
  - vm_compute; reflexivity.
Defined.

(** X3.  A run adds to the seen set the normalized principal addresses of
    the records it returns, and nothing else. *)
Theorem seen_after_run
    fuel web fs search_url search_term max_results on_progress seen_path seen0 st :
  load_seen fs seen_path = Return seen0 ->
  run fuel web fs search_url search_term max_results on_progress seen_path
    = Some (Return st) ->
  seen st = list_to_set (map normalized_principal (results st)) ∪ seen0.
Proof.
  intros Hload (seen0' & Hload' & (_ & Hseen & _))%run_returns.
  rewrite Hload in Hload'. by injection Hload' as <-.
Qed.

Lemma seen_after_run_witness :
  seen oak_state = list_to_set (map normalized_principal (results oak_state)) ∪ ∅.
Proof.
  apply (seen_after_run 1 oak_site no_files (Some start_url) None None true None).
  - reflexivity.
  - vm_compute; reflexivity.
Defined.

(** X4.  When a callback is given, it is called once for each accepted
    record, with the counts 1, 2, ... up to the number of records returned;
    without a callback no call is made. *)
Theorem progress_counts_up
    fuel web fs search_url search_term max_results on_progress seen_path st :
  run fuel web fs search_url search_term max_results on_progress seen_path
    = Some (Return st) ->
  progress st = if on_progress then List.seq 1 (List.length (results st)) else [].
Proof.
  unfold run. destruct (load_seen fs seen_path) as [seen0|e]; [|done].
  intros (k & Hlen & Hprog)%while_counted. simpl in *. by rewrite Hprog, Hlen.
Qed.

Lemma progress_counts_up_witness :
  progress oak_state = List.seq 1 (List.length (results oak_state)).
Proof.
  apply (progress_counts_up 1 oak_site no_files (Some start_url) None None true None).
  vm_compute; reflexivity.
Defined.

(** X5.  Every record returned is built from a row of a listing page of
    the site and from the sections of the detail page that row links to:
    its names are the row's, its URL is the row's link made absolute, its
    details are what that page shows. *)
Theorem records_come_from_site
    fuel web fs search_url search_term max_results on_progress seen_path rs :
  fetch_sunbiz_data fuel web fs search_url search_term max_results on_progress seen_path
    = Some (Return rs) ->
  Forall (from_site web) rs.
Proof.
  intros (seen0 & st & _ & Hrun & <- & _)%fetch_returns. unfold run in Hrun.
  destruct (load_seen fs seen_path) as [s0|e]; [|done].
  eapply while_from_site; [|exact Hrun]. constructor.
Qed.

Lemma records_come_from_site_witness : Forall (from_site oak_site) [oak_record].
Proof.
  apply (records_come_from_site 1 oak_site no_files (Some start_url) None None false None).
  vm_compute; reflexivity.
Defined.

(** X6.  The address list written after a run has exactly one line feed
    for each record returned: every record contributes one line, and a
    line feed inside an address is replaced by a space. *)
Theorem text_file_has_one_line_per_record
    fuel web fs search_url search_term max_results on_progress seen_path rs :
  fetch_sunbiz_data fuel web fs search_url search_term max_results on_progress seen_path
    = Some (Return rs) ->
  count_occ ascii_dec (txt_file_text rs) LF = List.length rs.
Proof.
  intros (seen0 & st & _ & _ & _ & Hext & _)%fetch_returns.
  apply txt_file_lines. by apply extends_from_empty in Hext as [? _].
Qed.

Lemma text_file_has_one_line_per_record_witness :
  count_occ ascii_dec (txt_file_text [oak_record]) LF = 1.
Proof.
  apply (text_file_has_one_line_per_record 1 oak_site no_files (Some start_url)
           None None false None [oak_record]).
  vm_compute; reflexivity.
Defined.

(** X7.  In the mapping read from a detail page no label is empty, and
    labels and values carry no white space at their ends. *)
Theorem detail_sections_are_stripped page label value :
  _extract_detail_sections page !! label = Some value ->
  label <> [] /\ strip label = label /\ strip value = value.
Proof.
  apply (extract_sections_clean (detail_divs page) ∅). by intros l v H.
Qed.

Lemma detail_sections_are_stripped_witness :
  py "Status" <> [] /\ strip (py "Status") = py "Status" /\ strip (py "ACTIVE") = py "ACTIVE".
Proof.
  apply (detail_sections_are_stripped status_twice (py "Status") (py "ACTIVE")).
  vm_compute; reflexivity.
Defined.

(** X8.  A later section overwrites an earlier one with the same label:
    when the last block of a page has two spans and a label that is not
    blank, the mapping holds that block's value under its label. *)
Theorem detail_sections_last_wins page page' s0 s1 more :
  detail_divs page' = detail_divs page ++ [s0 :: s1 :: more] ->
  strip s0 <> [] ->
  _extract_detail_sections page' !! strip s0 = Some (strip s1).
Proof.
  intros Hdivs Hlabel. unfold _extract_detail_sections. rewrite Hdivs.
  apply extract_sections_last. unfold section_entry. by destruct (strip s0).
Qed.

Lemma detail_sections_last_wins_witness :
  _extract_detail_sections status_twice !! strip (py "Status") = Some (strip (py " ACTIVE ")).
Proof.
  apply (detail_sections_last_wins
           (detail [("Status", "INACTIVE"); ("Filing", "2001")])%string status_twice
           (py "Status") (py " ACTIVE ") []).
  - reflexivity.
  - vm_compute; discriminate.
Defined.

(** X9.  Reading the result table treats each row on its own and keeps
    the order; a row with fewer than three cells, or without a link in its
    first cell, is left out; the names, numbers and statuses read carry no
    white space at their ends. *)
Theorem search_results_row_by_row :
  (forall trs1 trs2, extract_rows (trs1 ++ trs2) = extract_rows trs1 ++ extract_rows trs2) /\
  (forall cells,
     extract_rows [cells] = [] <->
     List.length cells < 3 \/ exists c0 rest, cells = c0 :: rest /\ td_links c0 = []) /\
  (forall page, Forall stripped_row (_extract_search_results page)).
Proof.
  split; [apply extract_rows_app|]. split.
  - intros cells. rewrite extract_rows_omap, <- row_of_None. simpl.
    destruct (row_of cells); split; done.
  - intros page. unfold _extract_search_results. rewrite extract_rows_omap.
    apply Forall_forall. intros row (cells & _ & Hrow)%list_elem_of_omap.
    by eapply row_of_stripped.
Qed.

(** X10.  The "Next List" URL is never the empty string, so the
    pagination loop stops only when there is no link; it is the [href] of
    the first such link, with the site's origin put before a path that
    starts with a slash. *)
Theorem next_list_url_is_resolved page url :
  _get_next_list_url page = Some url ->
  truthy url = true /\
  exists link links href,
    next_list_links page = link :: links /\ a_href link = Some href /\ href <> [] /\
    url = if startswith (py "/") href then BASE_URL ++ href else href.
Proof.
  intros H. split; [by eapply next_list_url_truthy|by apply next_list_url_resolved].
Qed.

Lemma next_list_url_is_resolved_witness :
  truthy (py "https://search.sunbiz.org/Inquiry/next") = true /\
  exists link links href,
    next_list_links page_with_next = link :: links /\ a_href link = Some href /\ href <> [] /\
    py "https://search.sunbiz.org/Inquiry/next"
    = if startswith (py "/") href then BASE_URL ++ href else href.
Proof.
  apply (next_list_url_is_resolved page_with_next). reflexivity.
Defined.



(** X12.  With a configured maximum of at least one, the job for which the
    pipeline is started is exactly the job that was enqueued at that
    position, and its count lies between one and the maximum: the count
    is clamped when the request arrives, and the worker's own cap changes
    nothing. *)
Theorem pipeline_gets_the_enqueued_job cfg inputs n job :
  (1 <= max_addresses cfg)%Z ->
  FetchStart n job ∈ log (run_bot cfg inputs) ->
  enqueued_jobs (log (run_bot cfg inputs)) !! n = Some job /\ bounded cfg job.
Proof.
  intros Hmax Hin.
  pose proof (Counts_run_from cfg inputs initial Hmax (Counts_initial cfg))
    as (_ & _ & _ & Hlog).
  destruct (Hlog n job Hin) as [Hb Hdeq]. split; [|done].
  apply dequeued_is_enqueued; [apply Inv_run_bot|done].
Qed.

Lemma pipeline_gets_the_enqueued_job_witness :
  enqueued_jobs (log busy_bot) !! 0 = Some water_job /\ bounded bot_cfg water_job.
Proof.
  apply (pipeline_gets_the_enqueued_job bot_cfg two_requests 0 water_job).
  - vm_compute; discriminate.
  - vm_compute. left.
Defined.

(** X13.  The counter [queue_size] always equals the number of jobs
    waiting in [request_queue], so the position reported to a requester is
    the length of the queue with the new job in it. *)
Theorem queue_size_is_queue_length cfg inputs :
  queue_size (run_bot cfg inputs)
  = Z.of_nat (List.length (request_queue (run_bot cfg inputs))).
Proof. by apply size_run_from. Qed.

(** X14.  When [mkdir] succeeds [run_fetch_sync] does not raise, whatever
    the pipeline does; it returns a path exactly when the pipeline
    returned at least one record and the text file named after the term
    and the number of records exists in the data directory. *)
Theorem run_fetch_sync_swallows_pipeline_errors world term count dir seen_path :
  mkdir_error world = None ->
  exists r, run_fetch_sync world term count dir seen_path = Return r /\
    forall path, r = Some path <->
      exists results,
        fetch world term count (AsStr seen_path) = Return results /\ results <> [] /\
        path = in_dir dir (term_clean term ++ str_of_nat (List.length results) ++ py ".txt") /\
        file_exists world path = true.
Proof. apply run_fetch_sync_spec. Qed.

Lemma run_fetch_sync_swallows_pipeline_errors_witness :
  exists r, run_fetch_sync broken_world (py "water") 10 (py "data/bot") (py "s.txt") = Return r /\
    forall path, r = Some path <->
      exists results,
        fetch broken_world (py "water") 10 (AsStr (py "s.txt")) = Return results /\
        results <> [] /\
        path = in_dir (py "data/bot")
                 (term_clean (py "water") ++ str_of_nat (List.length results) ++ py ".txt") /\
        file_exists broken_world path = true.
Proof.
  apply (run_fetch_sync_swallows_pipeline_errors broken_world). reflexivity.
Defined.

(** X15.  A cancelled worker stays stopped: after a cancellation, whatever
    requests arrive and whatever answers come, the worker sends nothing
    and starts no pipeline; the log grows by the arrivals only, and the
    jobs stay in the queue. *)
Theorem cancelled_worker_stays_stopped cfg b inputs :
  let b' := fold_left (step cfg) inputs (queue_worker cfg b Cancelled) in
  pc b' = Stopped /\
  exists jobs, log b' = map Enqueued jobs ++ log b /\
               request_queue b' = request_queue b ++ rev jobs.
Proof.
  destruct (cancelled_stops cfg b) as (Hpc & Hlog & Hq).
  destruct (stopped_stays cfg inputs _ Hpc) as (Hpc' & _ & jobs & Hl & Hq').
  split; [done|]. exists jobs. by rewrite Hl, Hq', Hlog, Hq.
Qed.

(** X16.  The normal form of an address is empty exactly when the address
    is blank; otherwise it is not empty, has no white space at its ends
    and contains no line boundary, so that it fits on a line of the seen
    store. *)
Theorem normalized_address_fits_a_line addr :
  (_normalize_address addr = [] <-> whitespace_only addr) /\
  (~ whitespace_only addr -> storable (_normalize_address addr)).
Proof. split; [apply normalize_nil_iff|apply normalized_storable]. Qed.

Lemma normalized_address_fits_a_line_witness :
  storable (_normalize_address (py " 100  Oak Ave ")).
Proof.
  apply (proj2 (normalized_address_fits_a_line (py " 100  Oak Ave "))).
  intros H. apply Forall_cons in H as [_ H]. apply Forall_cons in H as [H _]. discriminate.
Defined.

(** X17.  The classification does not depend on the case of the letters
    A to Z: a text, and the text with its capital letters A-Z made small
    and every other character left as it is, are classified alike. *)
Theorem classification_ignores_case text :
  _is_po_box_or_empty (small_letters text) = _is_po_box_or_empty text.
Proof. apply is_po_box_or_empty_small_letters. Qed.

(** X18.  Sections never take validity away: a mapping that contains a
    valid one is valid; and a new section whose label does not mention an
    address, or whose value is blank or a PO Box, changes nothing. *)
Theorem has_valid_address_grows (d d' : gmap str str) (key value : str) :
  (d ⊆ d' -> _has_valid_address d = true -> _has_valid_address d' = true) /\
  (d !! key = None ->
   ~ mentions_address key \/ _is_po_box_or_empty value = true ->
   _has_valid_address (<[key := value]> d) = _has_valid_address d).
Proof. split; [apply has_valid_address_mono|apply has_valid_address_irrelevant]. Qed.

Lemma has_valid_address_grows_witness :
  _has_valid_address (<[py "Mailing Address" := py "PO Box 1"]>
                        (<[py "Principal Address" := py "123 Main St"]> ∅)) = true.
Proof.
  refine (proj1 (has_valid_address_grows
                   (<[py "Principal Address" := py "123 Main St"]> ∅)
                   (<[py "Mailing Address" := py "PO Box 1"]>
                      (<[py "Principal Address" := py "123 Main St"]> ∅))
                   [] []) _ _).
  - apply insert_subseteq. vm_compute; reflexivity.
  - vm_compute; reflexivity.
Defined.
